(** * Manipulator: link registry, forward kinematics and collision check

    A shallow embedding of [Manipulator.cpp].  The registry
    [std::map<int, MovableLink*>] is a finite map from ids to possibly-null
    links, [double] arithmetic is an interface ([Double]) so that every
    general statement holds for any implementation of the arithmetic, and the
    [while] walk over [prevId] carries fuel because the source puts no bound
    on it. *)

From Stdlib Require Import ZArith List Reals Lra.
From Stdlib Require Floats.
From stdpp Require Import gmap list sorting.

(** ** The arithmetic the source uses on [double] *)

(** Every operation [Manipulator.cpp] applies to a [double]: the literals
    [0.0], [0.1] and [M_PI], the conversion of the [int] literal [2], the
    operators [+ - * /], the [<cmath>] functions and the comparisons. *)
Class Double (D : Type) := {
  lit_0_0 : D;
  lit_0_1 : D;
  M_PI : D;
  of_int : Z -> D;
  dadd : D -> D -> D;
  dsub : D -> D -> D;
  dmul : D -> D -> D;
  ddiv : D -> D -> D;
  fcos : D -> D;
  fsin : D -> D;
  fsqrt : D -> D;
  fpow : D -> Z -> D;
  dlt : D -> D -> bool;
  dle : D -> D -> bool
}.

(** [a > b] on doubles is [b < a]. *)
Definition dgt {D} `{Double D} (a b : D) : bool := dlt b a.

(** The one order law some statements need: [a <= b] excludes [b < a]. *)
Class DoubleOrder (D : Type) `{Double D} : Prop :=
  dle_not_dlt : forall a b : D, dle a b = true -> dlt b a = false.

(** Outcome of a call: [Fault] is a failed [assert], a null dereference or
    the exception of [std::map::at]. *)
Inductive run (A : Type) : Type :=
| Fault : run A
| Ret : A -> run A.
Arguments Fault {A}.
Arguments Ret {A} _.

(** ** Links *)

(** Modelled from the spec: [Manipulator.h] (the classes [MovableLink],
    [Gripper] and [Camera]) is missing.  A link has an id, a length, an
    orientation (pitch, yaw) with a stored roll, the id of its predecessor,
    and the state of its specialization. *)
Inductive LinkKind (G C : Type) : Type :=
| PlainLink : LinkKind G C
| GripperLink : G -> LinkKind G C
| CameraLink : C -> LinkKind G C.
Arguments PlainLink {G C}.
Arguments GripperLink {G C} _.
Arguments CameraLink {G C} _.

Record MovableLink (D G C : Type) : Type := mkLink {
  link_id : Z;
  link_prevId : Z;
  link_r : D;
  link_pitch : D;
  link_yaw : D;
  link_roll : D;
  link_kind : LinkKind G C
}.
Arguments mkLink {D G C}.
Arguments link_id {D G C}.
Arguments link_prevId {D G C}.
Arguments link_r {D G C}.
Arguments link_pitch {D G C}.
Arguments link_yaw {D G C}.
Arguments link_roll {D G C}.
Arguments link_kind {D G C}.

(** Modelled from the spec: the methods of [Gripper] and [Camera] are
    missing; each acts on the state of its own specialization. *)
Class Capability (D G C : Type) := {
  gripper_open : D -> G -> G;
  gripper_close : G -> G;
  take_a_photo : C -> C
}.

(** What the operations write to [std::cerr]. *)
Inductive Diag (D : Type) : Type :=
| DuplicateId : Z -> Diag D
| NotAGripper : Z -> Diag D
| NotACamera : Z -> Diag D
| IncompleteChain : Z -> Diag D
| DomainViolation : D -> D -> Diag D
| Collision : Z -> D -> D -> D -> Diag D.
Arguments DuplicateId {D} _.
Arguments NotAGripper {D} _.
Arguments NotACamera {D} _.
Arguments IncompleteChain {D} _.
Arguments DomainViolation {D} _ _.
Arguments Collision {D} _ _ _ _.

(** One iteration of the [for] loop of [calculatePosition] either goes on
    with the new accumulators or returns from the function. *)
Inductive step_result (D : Type) : Type :=
| Continue : D * D * D -> step_result D
| Return : list (Diag D) * (D * D * D) -> step_result D.
Arguments Continue {D} _.
Arguments Return {D} _.

(** What [printStructure] writes to [std::cout]: its two frame lines and,
    for each link, whatever [printInfo] (declared in the missing header)
    prints, kept as one event. *)
Inductive Out (D G C : Type) : Type :=
| StructureHeader : Out D G C
| LinkInfo : MovableLink D G C -> Out D G C
| StructureFooter : Out D G C.
Arguments StructureHeader {D G C}.
Arguments LinkInfo {D G C} _.
Arguments StructureFooter {D G C}.

Section Manipulator.
Context {D G C : Type} `{Double D} `{Capability D G C}.

Local Abbreviation link := (MovableLink D G C).
(** [links_]: [None] as a value is a null pointer. *)
Local Abbreviation registry := (gmap Z (option (MovableLink D G C))).
Local Abbreviation pos := (D * D * D)%type.

Definition getId (l : link) : Z := link_id l.
Definition getPrevId (l : link) : Z := link_prevId l.
Definition getR (l : link) : D := link_r l.
Definition getDirection (l : link) : D * D := (link_pitch l, link_yaw l).

Definition link_setDirection (l : link) (p y r : D) : link :=
  mkLink (link_id l) (link_prevId l) (link_r l) p y r (link_kind l).

Definition with_kind (l : link) (k : LinkKind G C) : link :=
  mkLink (link_id l) (link_prevId l) (link_r l)
         (link_pitch l) (link_yaw l) (link_roll l) k.

(** [links_.count(id)] *)
Definition count (m : registry) (id : Z) : bool :=
  bool_decide (is_Some (m !! id)).

(** [links_[id]]: subscripting an absent key inserts a null pointer. *)
Definition subscript (m : registry) (id : Z) : registry * option link :=
  match m !! id with
  | Some p => (m, p)
  | None => (<[id := None]> m, None)
  end.

Definition addLink (m : registry) (lnk : option link)
  : run (registry * list (Diag D)) :=
  match lnk with
  | None => Fault
  | Some l =>
      let id := getId l in
      if count m id then Ret (m, [DuplicateId id])
      else Ret (<[id := Some l]> m, [])
  end.

Definition getLink (m : registry) (id : Z) : option link :=
  match m !! id with
  | Some p => p
  | None => None
  end.

Definition setDirection (ndebug : bool) (m : registry) (id : Z)
    (new_pitch new_yaw new_roll : D) : run registry :=
  if negb ndebug && negb (count m id) then Fault
  else
    let '(m', p) := subscript m id in
    match p with
    | Some l =>
        Ret (<[id := Some (link_setDirection l new_pitch new_yaw new_roll)]> m')
    | None => Fault
    end.

(** [dynamic_cast<Gripper*>] and [dynamic_cast<Camera*>]; a null pointer
    casts to null. *)
Definition cast_Gripper (p : option link) : option (link * G) :=
  match p with
  | Some l => match link_kind l with
              | GripperLink g => Some (l, g)
              | _ => None
              end
  | None => None
  end.

Definition cast_Camera (p : option link) : option (link * C) :=
  match p with
  | Some l => match link_kind l with
              | CameraLink c => Some (l, c)
              | _ => None
              end
  | None => None
  end.

Definition openGripper (m : registry) (id : Z) (angle : D)
  : registry * list (Diag D) :=
  let '(m', p) := subscript m id in
  match cast_Gripper p with
  | Some (l, g) =>
      (<[id := Some (with_kind l (GripperLink (gripper_open angle g)))]> m', [])
  | None => (m', [NotAGripper id])
  end.

Definition closeGripper (m : registry) (id : Z)
  : registry * list (Diag D) :=
  let '(m', p) := subscript m id in
  match cast_Gripper p with
  | Some (l, g) =>
      (<[id := Some (with_kind l (GripperLink (gripper_close g)))]> m', [])
  | None => (m', [NotAGripper id])
  end.

Definition takePhoto (m : registry) (id : Z)
  : registry * list (Diag D) :=
  let '(m', p) := subscript m id in
  match cast_Camera p with
  | Some (l, c) =>
      (<[id := Some (with_kind l (CameraLink (take_a_photo c)))]> m', [])
  | None => (m', [NotACamera id])
  end.

(** *** [calculatePosition] *)

Definition origin : pos := (lit_0_0, lit_0_0, lit_0_0).

(** The [while] loop collecting the chain; [None] when the fuel runs out.
    [push_back] appends. *)
Fixpoint walk (fuel : nat) (m : registry) (current_id : Z) (chain : list Z)
  : option (run (Z * list Z)) :=
  match fuel with
  | O => None
  | S fuel' =>
      if bool_decide (current_id ≠ 0%Z) && count m current_id then
        match m !! current_id with
        | Some (Some l) => walk fuel' m (getPrevId l) (chain ++ [current_id])
        | _ => Some Fault
        end
      else Some (Ret (current_id, chain))
  end.

(** The inner loop of [checkCollision]: [n] iterations from index [j],
    adding the displacement of [chain[j]] to [(prev_x, prev_y, prev_z)]. *)
Fixpoint prev_loop (m : registry) (chain : list Z) (n j : nat) (prev : pos)
  : run pos :=
  match n with
  | O => Ret prev
  | S n' =>
      match chain !! j with
      | None => Fault
      | Some k =>
          match m !! k with
          | Some (Some l) =>
              let r := getR l in
              let direction := getDirection l in
              let pitch := direction.1 in
              let yaw := direction.2 in
              let dx := dmul (dmul r (fcos yaw)) (fsin pitch) in
              let dy := dmul (dmul r (fsin yaw)) (fsin pitch) in
              let dz := dmul r (fcos pitch) in
              let '(prev_x, prev_y, prev_z) := prev in
              prev_loop m chain n' (S j)
                        (dadd prev_x dx, dadd prev_y dy, dadd prev_z dz)
          | _ => Fault
          end
      end
  end.

(** The outer loop of [checkCollision]: [n] iterations from index [i]. *)
Fixpoint collision_loop (m : registry) (chain : list Z) (n i : nat)
    (current : pos) : run bool :=
  match n with
  | O => Ret true
  | S n' =>
      match prev_loop m chain (S i) 0 (lit_0_0, lit_0_0, lit_0_0) with
      | Fault => Fault
      | Ret (prev_x, prev_y, prev_z) =>
          let '(current_x, current_y, current_z) := current in
          let distance :=
            fsqrt (dadd (dadd (fpow (dsub current_x prev_x) 2)
                              (fpow (dsub current_y prev_y) 2))
                        (fpow (dsub current_z prev_z) 2)) in
          if dlt distance lit_0_1 then Ret false
          else collision_loop m chain n' (S i) current
      end
  end.

Definition checkCollision (m : registry) (chain : list Z)
    (current_index : nat) (x y z : D) : run bool :=
  collision_loop m chain current_index 0 (x, y, z).

(** The body of the [for] loop of [calculatePosition] at index [i]. *)
Definition loop_body (m : registry) (chain : list Z) (i : nat) (acc : pos)
  : run (step_result D) :=
  match chain !! i with
  | None => Fault
  | Some k =>
      match m !! k with
      | Some (Some l) =>
          let r := getR l in
          let direction := getDirection l in
          let pitch := direction.1 in
          let yaw := direction.2 in
          if bool_decide (k = 1%Z)
             && (dgt pitch (ddiv M_PI (of_int 2))
                 || dgt yaw (ddiv M_PI (of_int 2)))
          then Ret (Return ([DomainViolation pitch yaw], origin))
          else
            let dx := dmul (dmul r (fcos yaw)) (fsin pitch) in
            let dy := dmul (dmul r (fsin yaw)) (fsin pitch) in
            let dz := dmul r (fcos pitch) in
            let '(x, y, z) := acc in
            let x := dadd x dx in
            let y := dadd y dy in
            let z := dadd z dz in
            if (0 <? i)%nat then
              match checkCollision m chain i x y z with
              | Fault => Fault
              | Ret false => Ret (Return ([Collision k x y z], origin))
              | Ret true => Ret (Continue (x, y, z))
              end
            else Ret (Continue (x, y, z))
      | _ => Fault
      end
  end.

(** The [for] loop: [n] iterations from index [i]. *)
Fixpoint position_loop (m : registry) (chain : list Z) (n i : nat)
    (acc : pos) : run (list (Diag D) * pos) :=
  match n with
  | O => Ret ([], acc)
  | S n' =>
      match loop_body m chain i acc with
      | Fault => Fault
      | Ret (Return out) => Ret out
      | Ret (Continue acc') => position_loop m chain n' (S i) acc'
      end
  end.

(** [ndebug] says whether [assert] is compiled out; [None] is a walk
    that outlives the fuel. *)
Definition calculatePosition (ndebug : bool) (fuel : nat) (m : registry)
    (id : Z) : option (run (list (Diag D) * pos)) :=
  if negb ndebug && negb (count m id) then Some Fault
  else
    match walk fuel m id [] with
    | None => None
    | Some Fault => Some Fault
    | Some (Ret (current_id, chain)) =>
        if bool_decide (current_id ≠ 0%Z)
        then Some (Ret ([IncompleteChain id], origin))
        else
          let chain := reverse chain in
          Some (position_loop m chain (length chain) 0 origin)
    end.

(** ** What the statements are phrased with *)

(** The displacement of one link, in the words of the specification:
    [dx = r cos(yaw) sin(pitch)], [dy = r sin(yaw) sin(pitch)],
    [dz = r cos(pitch)]. *)
Definition link_displacement (l : link) : pos :=
  (dmul (dmul (link_r l) (fcos (link_yaw l))) (fsin (link_pitch l)),
   dmul (dmul (link_r l) (fsin (link_yaw l))) (fsin (link_pitch l)),
   dmul (link_r l) (fcos (link_pitch l))).

Definition vadd (p q : pos) : pos :=
  (dadd p.1.1 q.1.1, dadd p.1.2 q.1.2, dadd p.2 q.2).

(** Componentwise sum of the displacements of [ls], taken in order and
    started from the base position. *)
Definition chain_position (ls : list link) : pos :=
  fold_left (fun acc l => vadd acc (link_displacement l)) ls origin.

(** Euclidean distance of two points. *)
Definition distance (p q : pos) : D :=
  fsqrt (dadd (dadd (fpow (dsub p.1.1 q.1.1) 2) (fpow (dsub p.1.2 q.1.2) 2))
              (fpow (dsub p.2 q.2) 2)).

(** The domain of the base-attached link: pitch and yaw in [[0, pi/2]]. *)
Definition in_domain (l : link) : Prop :=
  dle lit_0_0 (link_pitch l) = true
  /\ dle (link_pitch l) (ddiv M_PI (of_int 2)) = true
  /\ dle lit_0_0 (link_yaw l) = true
  /\ dle (link_yaw l) (ddiv M_PI (of_int 2)) = true.

(** What the source tests for the link with id 1. *)
Definition exceeds_half_pi (l : link) : bool :=
  dgt (link_pitch l) (ddiv M_PI (of_int 2))
  || dgt (link_yaw l) (ddiv M_PI (of_int 2)).

(** [Walk m id ls e]: following [prevId] from [id] passes through the
    registered links [ls] (target first, each with its key) and arrives at
    the id [e]. *)
Inductive Walk (m : registry) : Z -> list (Z * link) -> Z -> Prop :=
| Walk_end (id : Z) : Walk m id [] id
| Walk_link (id : Z) (l : link) (ls : list (Z * link)) (e : Z) :
    id ≠ 0%Z ->
    m !! id = Some (Some l) ->
    Walk m (getPrevId l) ls e ->
    Walk m id ((id, l) :: ls) e.

(** Where the [while] loop stops: at the base or at an id that is not
    registered. *)
Definition walk_stops (m : registry) (e : Z) : Prop :=
  e = 0%Z \/ m !! e = None.

(** Where the [while] loop dereferences a null pointer: at a key that is
    registered without a link. *)
Definition walk_faults (m : registry) (e : Z) : Prop :=
  e ≠ 0%Z /\ m !! e = Some None.

(** Every entry of a chain is a link registered under its key. *)
Definition resolved (m : registry) (rs : list (Z * link)) : Prop :=
  Forall (fun kl => m !! kl.1 = Some (Some kl.2)) rs.

(** Position of the chain index [j]: the displacements of the links from the
    root through [j], summed. *)
Definition position_at (rs : list (Z * link)) (j : nat) : pos :=
  chain_position (take (S j) rs.*2).

(** The collision test of the source: the distance is below [0.1]. *)
Definition too_close (p q : pos) : bool := dlt (distance p q) lit_0_1.

(** Two links that differ at most in the stored roll. *)
Definition same_but_roll (a b : link) : Prop :=
  link_id a = link_id b /\ link_prevId a = link_prevId b
  /\ link_r a = link_r b /\ link_pitch a = link_pitch b
  /\ link_yaw a = link_yaw b /\ link_kind a = link_kind b.

(** Two registries with the same keys and the same null entries whose links
    differ at most in the stored roll. *)
Definition registry_same_but_roll (m1 m2 : registry) : Prop :=
  forall id : Z,
    match m1 !! id, m2 !! id with
    | None, None => True
    | Some None, Some None => True
    | Some (Some a), Some (Some b) => same_but_roll a b
    | _, _ => False
    end.

(** *** [printStructure] *)

(** The [for] loop of [printStructure] over the pairs of [links_]: what was
    printed, and whether the loop ended or stopped at [link->printInfo()] on
    a null pointer. *)
Fixpoint print_loop (es : list (Z * option link))
  : list (Out D G C) * run unit :=
  match es with
  | [] => ([], Ret tt)
  | (_, None) :: _ => ([], Fault)
  | (_, Some l) :: es' =>
      let '(o, r) := print_loop es' in (LinkInfo l :: o, r)
  end.

(** The type of [links_] is declared in the missing header, so the order
    in which the range-[for] meets the pairs is the parameter [iterate]. *)
Definition printStructure (iterate : registry -> list (Z * option link))
    (m : registry) : list (Out D G C) * run unit :=
  let '(o, r) := print_loop (iterate m) in
  match r with
  | Fault => (StructureHeader :: o, Fault)
  | Ret _ => (StructureHeader :: o ++ [StructureFooter], Ret tt)
  end.

(** An iteration meets every pair of the container once. *)
Definition visits_all (iterate : registry -> list (Z * option link)) : Prop :=
  forall m, iterate m ≡ₚ map_to_list m.

Definition entry_le (a b : Z * option link) : Prop := (a.1 <= b.1)%Z.

#[local] Instance entry_le_dec (a b : Z * option link)
  : Decision (entry_le a b) := Z_le_dec a.1 b.1.

(** The iteration of a [std::map<int, ...>]: ascending keys. *)
Definition entries (m : registry) : list (Z * option link) :=
  merge_sort entry_le (map_to_list m).

(** *** Relations between registries *)

(** Every link is stored under its own id. *)
Definition well_keyed (m : registry) : Prop :=
  forall k l, m !! k = Some (Some l) -> getId l = k.

(** Two registries with the same keys and the same null entries whose links
    are pairwise related by [P]. *)
Definition registry_related (P : link -> link -> Prop) (m1 m2 : registry)
  : Prop :=
  forall id : Z,
    match m1 !! id, m2 !! id with
    | None, None => True
    | Some None, Some None => True
    | Some (Some a), Some (Some b) => P a b
    | _, _ => False
    end.

(** Two links with the same predecessor. *)
Definition same_prevId (a b : link) : Prop := link_prevId a = link_prevId b.

(** Two links with the same predecessor, length, pitch and yaw. *)
Definition same_kinematics (a b : link) : Prop :=
  link_prevId a = link_prevId b /\ link_r a = link_r b
  /\ link_pitch a = link_pitch b /\ link_yaw a = link_yaw b.

End Manipulator.

(** ** Idealised doubles and a concrete registry signature *)

#[export] Instance Rlt_decision (a b : R) : Decision (a < b)%R := Rlt_dec a b.
#[export] Instance Rle_decision (a b : R) : Decision (a <= b)%R := Rle_dec a b.

(** Doubles read as real numbers: the same literals and operations, without
    rounding. *)
#[export] Instance R_Double : Double R := {|
  lit_0_0 := 0%R;
  lit_0_1 := 0.1%R;
  M_PI := 3.14159265358979323846%R;
  of_int := IZR;
  dadd := Rplus;
  dsub := Rminus;
  dmul := Rmult;
  ddiv := Rdiv;
  fcos := cos;
  fsin := sin;
  fsqrt := sqrt;
  fpow := powerRZ;
  dlt := fun a b => bool_decide (a < b)%R;
  dle := fun a b => bool_decide (a <= b)%R
|}.

(** Modelled from the spec: the bodies of [Gripper::open], [Gripper::close]
    and [Camera::take_a_photo] are missing.  A gripper keeps its aperture
    angle, a camera the number of photos taken. *)
#[export] Instance R_Capability : Capability R R nat := {|
  gripper_open := fun angle _ => angle;
  gripper_close := fun _ => 0%R;
  take_a_photo := fun c => S c
|}.

Definition plain (id prev : Z) (r pitch yaw roll : R) : MovableLink R R nat :=
  mkLink id prev r pitch yaw roll PlainLink.

(** Two links standing upright on the base, one on top of the other. *)
Definition upright_1 : MovableLink R R nat := plain 1 0 1 0 0 0.
Definition upright_2 : MovableLink R R nat := plain 2 1 1 0 0 0.
Definition two_links : gmap Z (option (MovableLink R R nat)) :=
  <[1%Z := Some upright_1]> (<[2%Z := Some upright_2]> ∅).

(** The second link has length 0: it resolves to the position of link 1. *)
Definition zero_length_2 : MovableLink R R nat := plain 2 1 0 0 0 0.
Definition folded_links : gmap Z (option (MovableLink R R nat)) :=
  <[1%Z := Some upright_1]> (<[2%Z := Some zero_length_2]> ∅).

(** Link 1 alone, attached to the base, with pitch [-1]. *)
Definition negative_pitch_1 : MovableLink R R nat := plain 1 0 1 (-1) 0 0.
Definition negative_pitch : gmap Z (option (MovableLink R R nat)) :=
  {[ 1%Z := Some negative_pitch_1 ]}.

(** Links 2 and 3 name each other as predecessor. *)
Definition cyclic : gmap Z (option (MovableLink R R nat)) :=
  <[2%Z := Some (plain 2 3 1 0 0 0)]> (<[3%Z := Some (plain 3 2 1 0 0 0)]> ∅).

(** Link 2 names a predecessor that is not registered. *)
Definition dangling_2 : MovableLink R R nat := plain 2 7 1 0 0 0.
Definition dangling : gmap Z (option (MovableLink R R nat)) :=
  {[ 2%Z := Some dangling_2 ]}.

(** Link 1 again with another roll. *)
Definition rolled_1 : MovableLink R R nat := plain 1 0 1 0 0 2.

(** A gripper and a camera on top of link 1. *)
Definition gripper_3 : MovableLink R R nat :=
  mkLink 3%Z 1%Z 1%R 1%R 0%R 0%R (GripperLink 0%R).
Definition camera_4 : MovableLink R R nat :=
  mkLink 4%Z 1%Z 1%R 1%R 1%R 0%R (CameraLink 0%nat).
Definition tools : gmap Z (option (MovableLink R R nat)) :=
  <[1%Z := Some upright_1]>
    (<[3%Z := Some gripper_3]> (<[4%Z := Some camera_4]> ∅)).

(** ** binary64 doubles *)

Module Binary64.
Import PrimFloat.









End Binary64.

(** * Properties *)

Section Properties.
Context {D G C : Type} `{Double D} `{Capability D G C}.

Local Abbreviation link := (MovableLink D G C).
Local Abbreviation registry := (gmap Z (option (MovableLink D G C))).
Local Abbreviation pos := (D * D * D)%type.

Implicit Types (m : registry) (id e k : Z) (l : link) (ls rs : list (Z * link)).

(** *** The walk *)

Lemma count_true m id : count m id = true <-> is_Some (m !! id).
Proof. unfold count. apply bool_decide_eq_true. Qed.

Lemma count_false m id : count m id = false <-> m !! id = None.
Proof.
  unfold count. rewrite bool_decide_eq_false, <- eq_None_not_Some. done.
Qed.

Lemma walk_S fuel m id chain :
  walk (S fuel) m id chain =
  if bool_decide (id ≠ 0%Z) && count m id then
    match m !! id with
    | Some (Some l) => walk fuel m (getPrevId l) (chain ++ [id])
    | _ => Some Fault
    end
  else Some (Ret (id, chain)).
Proof. reflexivity. Qed.

Lemma walk_Walk m id ls e chain (extra : nat) :
  Walk m id ls e -> walk_stops m e ->
  walk (S (length ls + extra)) m id chain = Some (Ret (e, chain ++ ls.*1)).
Proof.
  intros Hw Hstop. revert chain.
  induction Hw as [id | id l ls e Hne Hl Hw IH]; intros chain.
  - rewrite walk_S, app_nil_r.
    destruct Hstop as [-> | Hnone].
    + rewrite bool_decide_eq_false_2 by tauto. done.
    + apply count_false in Hnone. rewrite Hnone, andb_false_r. done.
  - cbn [length Nat.add]. rewrite walk_S.
    rewrite bool_decide_eq_true_2 by done.
    assert (count m id = true) as -> by (apply count_true; eauto).
    cbn [andb]. rewrite Hl, (IH Hstop). cbn [fmap list_fmap fst].
    rewrite <- app_assoc. done.
Qed.

Lemma Walk_resolved m id ls e : Walk m id ls e -> resolved m ls.
Proof.
  induction 1 as [| id l ls e Hne Hl Hw IH]; constructor; done.
Qed.

Lemma resolved_reverse m ls : resolved m ls -> resolved m (reverse ls).
Proof. unfold resolved. apply Forall_reverse. Qed.

Lemma resolved_lookup m rs i k l :
  resolved m rs -> rs !! i = Some (k, l) -> m !! k = Some (Some l).
Proof.
  intros Hres Hi. unfold resolved in Hres.
  rewrite Forall_lookup in Hres. apply (Hres i (k, l) Hi).
Qed.

Lemma lookup_keys rs i k l : rs !! i = Some (k, l) -> rs.*1 !! i = Some k.
Proof. intros Hi. rewrite list_lookup_fmap, Hi. done. Qed.

Lemma lookup_links rs i k l : rs !! i = Some (k, l) -> rs.*2 !! i = Some l.
Proof. intros Hi. rewrite list_lookup_fmap, Hi. done. Qed.

(** *** The loops of [checkCollision] *)

Lemma prev_loop_sum m rs (n j : nat) (prev : pos) :
  resolved m rs -> j + n <= length rs ->
  prev_loop m rs.*1 n j prev =
  Ret (fold_left (fun acc l => vadd acc (link_displacement l))
                 (take n (drop j rs.*2)) prev).
Proof.
  intros Hres. revert j prev.
  induction n as [| n IH]; intros j prev Hlen; [done |].
  destruct (lookup_lt_is_Some_2 rs j) as [[k l] Hj]; [lia |].
  cbn [prev_loop]. rewrite (lookup_keys _ _ _ _ Hj).
  rewrite (resolved_lookup _ _ _ _ _ Hres Hj).
  rewrite (drop_S _ _ _ (lookup_links _ _ _ _ Hj)). cbn [take fold_left].
  destruct prev as [[px py] pz]. rewrite IH by lia. done.
Qed.

Lemma prev_loop_position m rs (i : nat) :
  resolved m rs -> i < length rs ->
  prev_loop m rs.*1 (S i) 0 (lit_0_0, lit_0_0, lit_0_0) = Ret (position_at rs i).
Proof.
  intros Hres Hi. rewrite prev_loop_sum by (done || lia).
  rewrite drop_0. done.
Qed.

Lemma collision_loop_forallb m rs (n i : nat) (current : pos) :
  resolved m rs -> i + n <= length rs ->
  collision_loop m rs.*1 n i current =
  Ret (forallb (fun j => negb (too_close current (position_at rs j))) (seq i n)).
Proof.
  intros Hres. revert i.
  induction n as [| n IH]; intros i Hlen; [done |].
  cbn [collision_loop]. rewrite prev_loop_position by (done || lia).
  destruct (position_at rs i) as [[px py] pz] eqn:Hp.
  destruct current as [[cx cy] cz]. cbn [seq forallb]. rewrite Hp.
  unfold too_close at 1, distance. cbn [fst snd].
  destruct (dlt _ lit_0_1); [done |]. cbn [negb andb]. apply IH. lia.
Qed.

Lemma checkCollision_forallb m rs (i : nat) (x y z : D) :
  resolved m rs -> i <= length rs ->
  checkCollision m rs.*1 i x y z =
  Ret (forallb (fun j => negb (too_close (x, y, z) (position_at rs j)))
               (seq 0 i)).
Proof. intros Hres Hi. apply collision_loop_forallb; done. Qed.

(** *** The loop of [calculatePosition] *)

Lemma position_at_step rs (i : nat) k l :
  rs !! i = Some (k, l) ->
  position_at rs i = vadd (chain_position (take i rs.*2)) (link_displacement l).
Proof.
  intros Hi. unfold position_at, chain_position.
  rewrite (take_S_r _ _ _ (lookup_links _ _ _ _ Hi)).
  rewrite fold_left_app. done.
Qed.

Lemma loop_body_eq m rs (i : nat) k l (acc : pos) :
  resolved m rs -> rs !! i = Some (k, l) ->
  loop_body m rs.*1 i acc =
  if bool_decide (k = 1%Z) && exceeds_half_pi l
  then Ret (Return ([DomainViolation (link_pitch l) (link_yaw l)], origin))
  else
    let p := vadd acc (link_displacement l) in
    if (0 <? i)%nat
       && negb (forallb (fun j => negb (too_close p (position_at rs j)))
                        (seq 0 i))
    then Ret (Return ([Collision k p.1.1 p.1.2 p.2], origin))
    else Ret (Continue p).
Proof.
  intros Hres Hi. unfold loop_body.
  rewrite (lookup_keys _ _ _ _ Hi), (resolved_lookup _ _ _ _ _ Hres Hi).
  cbn [getDirection getR fst snd]. fold (exceeds_half_pi l).
  destruct (bool_decide (k = 1%Z) && exceeds_half_pi l); [done |].
  destruct acc as [[x y] z]. unfold vadd, link_displacement. cbn [fst snd].
  destruct (0 <? i)%nat eqn:Hpos; [| done].
  rewrite checkCollision_forallb
    by (done || apply Nat.lt_le_incl, (lookup_lt_Some _ _ _ Hi)).
  cbn [andb]. destruct (forallb _ _); done.
Qed.

Lemma position_loop_S m (chain : list Z) (n i : nat) (acc : pos) :
  position_loop m chain (S n) i acc =
  match loop_body m chain i acc with
  | Fault => Fault
  | Ret (Return out) => Ret out
  | Ret (Continue acc') => position_loop m chain n (S i) acc'
  end.
Proof. reflexivity. Qed.

(** With no link 1 beyond its bound and no two positions too close, the
    loop runs to its end and returns the sum over the whole chain. *)
Lemma position_loop_sum m rs (n i : nat) :
  resolved m rs ->
  i + n = length rs ->
  (forall j l, rs !! j = Some (1%Z, l) -> exceeds_half_pi l = false) ->
  (forall a b, b < a < length rs ->
     too_close (position_at rs a) (position_at rs b) = false) ->
  position_loop m rs.*1 n i (chain_position (take i rs.*2)) =
  Ret ([], chain_position rs.*2).
Proof.
  intros Hres Hlen Hdom Hfar. revert i Hlen.
  induction n as [| n IH]; intros i Hlen.
  - cbn [position_loop]. rewrite take_ge; [done |].
    rewrite length_fmap. lia.
  - destruct (lookup_lt_is_Some_2 rs i) as [[k l] Hi]; [lia |].
    rewrite position_loop_S, (loop_body_eq _ _ _ _ _ _ Hres Hi).
    assert (bool_decide (k = 1%Z) && exceeds_half_pi l = false) as ->.
    { case_bool_decide as Hk; [| done]. subst k. apply (Hdom i l Hi). }
    cbn zeta. rewrite <- (position_at_step _ _ _ _ Hi).
    assert (forallb (fun j => negb (too_close (position_at rs i)
                                               (position_at rs j)))
                    (seq 0 i) = true) as ->.
    { apply forallb_forall. intros j Hj. apply in_seq in Hj.
      rewrite Hfar by lia. done. }
    rewrite andb_false_r. cbn [negb andb].
    change (position_at rs i) with (chain_position (take (S i) rs.*2)).
    apply IH. lia.
Qed.

(** *** [calculatePosition] on a chain that the walk resolves *)

Lemma assert_passes ndebug m id :
  is_Some (m !! id) -> negb ndebug && negb (count m id) = false.
Proof.
  intros Hreg. apply count_true in Hreg. rewrite Hreg.
  apply andb_false_r.
Qed.

Lemma calculatePosition_walk ndebug m id ls e (fuel : nat) :
  is_Some (m !! id) -> Walk m id ls e -> walk_stops m e ->
  S (length ls) <= fuel ->
  calculatePosition ndebug fuel m id =
  if bool_decide (e ≠ 0%Z) then Some (Ret ([IncompleteChain id], origin))
  else Some (position_loop m (reverse ls).*1 (length ls) 0 origin).
Proof.
  intros Hreg Hw Hstop Hfuel. unfold calculatePosition.
  rewrite (assert_passes _ _ _ Hreg).
  replace fuel with (S (length ls + (fuel - S (length ls)))) by lia.
  rewrite (walk_Walk _ _ _ _ _ _ Hw Hstop). cbn [app].
  case_bool_decide; [done |].
  rewrite fmap_reverse, length_reverse, length_fmap. done.
Qed.

(** C1: for a registered link whose [prevId] chain ends at the base, with
    link 1 (when it is in the chain) inside its domain and all pairs of
    chain positions at distance at least [0.1], [calculatePosition] returns,
    without any diagnostic, the componentwise sum of the displacements
    [(r cos(yaw) sin(pitch), r sin(yaw) sin(pitch), r cos(pitch))] of the
    links from the root to the target, accumulated from the base position. *)
Theorem calculatePosition_sum `{!DoubleOrder D} ndebug m id ls :
  is_Some (m !! id) ->
  Walk m id ls 0%Z ->
  (forall l, (1%Z, l) ∈ ls -> in_domain l) ->
  (forall a b, b < a < length ls ->
     dle lit_0_1 (distance (position_at (reverse ls) a)
                           (position_at (reverse ls) b)) = true) ->
  exists n, forall fuel, n <= fuel ->
    calculatePosition ndebug fuel m id =
    Some (Ret ([], chain_position (reverse ls).*2)).
Proof.
  intros Hreg Hw Hdom Hfar. exists (S (length ls)). intros fuel Hfuel.
  rewrite (calculatePosition_walk _ _ _ _ _ _ Hreg Hw) by (done || by left).
  rewrite bool_decide_eq_false_2 by tauto. f_equal.
  assert (chain_position (take 0 (reverse ls).*2) = origin (D:=D)) as <-
    by done.
  apply position_loop_sum.
  - apply resolved_reverse, (Walk_resolved _ _ _ _ Hw).
  - rewrite length_reverse. done.
  - intros j l Hj. apply list_elem_of_lookup_2, elem_of_reverse, Hdom in Hj.
    destruct Hj as (_ & Hp & _ & Hy). unfold exceeds_half_pi, dgt.
    rewrite (dle_not_dlt _ _ Hp), (dle_not_dlt _ _ Hy). done.
  - intros a b Hab. rewrite length_reverse in Hab.
    unfold too_close. apply dle_not_dlt, Hfar, Hab.
Qed.

(** C5: a registered target whose [prevId] walk arrives at an id that is
    neither 0 nor registered makes [calculatePosition] report the incomplete
    chain and return [(0, 0, 0)]; it neither faults nor runs forever. *)
Theorem calculatePosition_incomplete ndebug m id ls e :
  is_Some (m !! id) ->
  Walk m id ls e ->
  e ≠ 0%Z -> m !! e = None ->
  exists n, forall fuel, n <= fuel ->
    calculatePosition ndebug fuel m id =
    Some (Ret ([IncompleteChain id], origin)).
Proof.
  intros Hreg Hw Hne Hnone. exists (S (length ls)). intros fuel Hfuel.
  rewrite (calculatePosition_walk _ _ _ _ _ _ Hreg Hw) by (done || by right).
  rewrite bool_decide_eq_true_2; done.
Qed.

(** C6, amended: with target id 0, [calculatePosition] returns [(0, 0, 0)]
    and reports nothing whenever its assertion lets the call through, that
    is when id 0 is registered or assertions are compiled out. *)
Theorem calculatePosition_base ndebug m (fuel : nat) :
  ndebug = true \/ is_Some (m !! 0%Z) ->
  calculatePosition ndebug (S fuel) m 0%Z = Some (Ret ([], origin)).
Proof.
  intros Hpre. unfold calculatePosition.
  assert (negb ndebug && negb (count m 0) = false) as ->.
  { destruct Hpre as [-> | Hreg]; [done | by apply assert_passes]. }
  rewrite walk_S, bool_decide_eq_false_2 by tauto. cbn [andb].
  rewrite bool_decide_eq_false_2 by tauto. done.
Qed.

(** *** The collision check inside the loop *)

Lemma forallb_false_exists {A} (f : A -> bool) (xs : list A) :
  forallb f xs = false <-> exists x, In x xs /\ f x = false.
Proof.
  induction xs as [| x xs IH]; cbn [forallb In].
  - split; [discriminate | intros (x & [] & _)].
  - rewrite andb_false_iff, IH. split.
    + intros [Hx | (y & Hy & Hf)]; eauto.
    + intros (y & [<- | Hy] & Hf); eauto.
Qed.

Lemma forallb_far_false (p : pos) rs (i : nat) :
  forallb (fun j => negb (too_close p (position_at rs j))) (seq 0 i) = false
  <-> exists j, j < i /\ too_close p (position_at rs j) = true.
Proof.
  rewrite forallb_false_exists. split.
  - intros (j & Hj & Hc). apply in_seq in Hj. apply negb_false_iff in Hc.
    exists j. split; [lia | done].
  - intros (j & Hj & Hc). exists j. split; [apply in_seq; lia |].
    rewrite Hc. done.
Qed.

(** Over the whole loop: when link 1 is within its bound and some link of
    the chain comes too close to an earlier one, the loop returns the
    collision report of the first such link. *)
Lemma position_loop_collision m rs (n i : nat) :
  resolved m rs ->
  i + n = length rs ->
  (forall j l, rs !! j = Some (1%Z, l) -> exceeds_half_pi l = false) ->
  (exists a b, i <= a < length rs /\ b < a
               /\ too_close (position_at rs a) (position_at rs b) = true) ->
  exists a k,
    i <= a /\ rs.*1 !! a = Some k
    /\ position_loop m rs.*1 n i (chain_position (take i rs.*2))
       = Ret ([Collision k (position_at rs a).1.1 (position_at rs a).1.2
                           (position_at rs a).2], origin).
Proof.
  intros Hres Hlen Hdom Hclose. revert i Hlen Hclose.
  induction n as [| n IH]; intros i Hlen (a & b & Ha & Hb & Hab); [lia |].
  destruct (lookup_lt_is_Some_2 rs i) as [[k l] Hi]; [lia |].
  rewrite position_loop_S, (loop_body_eq _ _ _ _ _ _ Hres Hi).
  assert (bool_decide (k = 1%Z) && exceeds_half_pi l = false) as ->.
  { case_bool_decide as Hk; [| done]. subst k. apply (Hdom i l Hi). }
  cbn zeta. rewrite <- (position_at_step _ _ _ _ Hi).
  destruct (forallb _ (seq 0 i)) eqn:Hall.
  - assert (i ≠ a) as Hne.
    { intros ->. rewrite forallb_forall in Hall. specialize (Hall b).
      rewrite Hab in Hall. discriminate Hall. apply in_seq. lia. }
    rewrite andb_false_r.
    change (position_at rs i) with (chain_position (take (S i) rs.*2)).
    destruct (IH (S i)) as (a' & k' & Ha' & Hk' & Hrun); [lia | |].
    { exists a, b. split; [lia | done]. }
    exists a', k'. split; [lia | done].
  - apply forallb_far_false in Hall as (j & Hj & _).
    assert ((0 <? i)%nat = true) as -> by (apply Nat.ltb_lt; lia).
    exists i, k. split; [lia |]. split; [apply (lookup_keys _ _ _ _ Hi) | done].
Qed.

(** Two links of a chain at positions too close to each other make
    [calculatePosition] return the collision report with [(0, 0, 0)]. *)
Lemma calculatePosition_collision ndebug m id ls :
  is_Some (m !! id) ->
  Walk m id ls 0%Z ->
  (forall l, (1%Z, l) ∈ ls -> exceeds_half_pi l = false) ->
  (exists a b, b < a < length ls
     /\ too_close (position_at (reverse ls) a) (position_at (reverse ls) b)
        = true) ->
  exists n, forall fuel, n <= fuel ->
    exists k (x y z : D),
      calculatePosition ndebug fuel m id
      = Some (Ret ([Collision k x y z], origin)).
Proof.
  intros Hreg Hw Hdom (a & b & Hab & Hclose).
  exists (S (length ls)). intros fuel Hfuel.
  rewrite (calculatePosition_walk _ _ _ _ _ _ Hreg Hw) by (done || by left).
  rewrite bool_decide_eq_false_2 by tauto.
  destruct (position_loop_collision m (reverse ls) (length ls) 0)
    as (a' & k & _ & _ & Hrun).
  - apply resolved_reverse, (Walk_resolved _ _ _ _ Hw).
  - by rewrite length_reverse.
  - intros j l Hj. apply Hdom, elem_of_reverse, (list_elem_of_lookup_2 _ _ _ Hj).
  - exists a, b. rewrite length_reverse. split; [lia |]. split; [lia | done].
  - cbn [take] in Hrun. do 4 eexists. f_equal. exact Hrun.
Qed.

(** *** The bound on link 1 *)

(** A chain holding link 1 beyond its bound at index [a]: the loop returns
    [(0, 0, 0)], reporting the bound unless a link before [a] collided. *)
Lemma position_loop_domain m rs (n i a : nat) l (acc : pos) :
  resolved m rs ->
  i + n = length rs -> i <= a ->
  rs !! a = Some (1%Z, l) ->
  exceeds_half_pi l = true ->
  exists diags,
    position_loop m rs.*1 n i acc = Ret (diags, origin)
    /\ (diags = [DomainViolation (link_pitch l) (link_yaw l)]
        \/ exists j k x y z,
             i <= j < a /\ rs.*1 !! j = Some k /\ diags = [Collision k x y z]).
Proof.
  intros Hres Hlen Hia Ha Hex. revert i acc Hlen Hia.
  induction n as [| n IH]; intros i acc Hlen Hia.
  - apply lookup_lt_Some in Ha. lia.
  - destruct (lookup_lt_is_Some_2 rs i) as [[k l'] Hi]; [lia |].
    rewrite position_loop_S, (loop_body_eq _ _ _ _ _ _ Hres Hi).
    destruct (bool_decide (k = 1%Z) && exceeds_half_pi l') eqn:Hchk.
    + apply andb_true_iff in Hchk as [Hk _].
      apply bool_decide_eq_true in Hk. subst k.
      pose proof (resolved_lookup _ _ _ _ _ Hres Hi) as H1.
      pose proof (resolved_lookup _ _ _ _ _ Hres Ha) as H2.
      assert (l' = l) as -> by congruence. eauto.
    + assert (i < a) as Hlt.
      { destruct (decide (i = a)) as [-> | Hne]; [| lia].
        rewrite Ha in Hi. injection Hi as <- <-.
        rewrite bool_decide_eq_true_2, Hex in Hchk by done.
        discriminate Hchk. }
      cbn zeta. destruct ((0 <? i)%nat && negb _).
      * eexists. split; [done |]. right.
        do 5 eexists. split; [| split; [apply (lookup_keys _ _ _ _ Hi) | done]].
        lia.
      * destruct (IH (S i) (vadd acc (link_displacement l')))
          as (diags & Hrun & Hwhat); [lia | lia |].
        exists diags. split; [done |].
        destruct Hwhat as [-> | (j & k' & x & y & z & Hj & Hk' & ->)];
          [by left | right].
        exists j, k', x, y, z. split; [lia | done].
Qed.

(** The bound is tested on the key 1 only: a reported violation carries the
    angles of the link registered as 1, and that link is beyond the bound. *)
Lemma loop_body_domain_report m (chain : list Z) (i : nat) (acc : pos)
    diags (p : pos) (pitch yaw : D) :
  loop_body m chain i acc = Ret (Return (diags, p)) ->
  DomainViolation pitch yaw ∈ diags ->
  exists l, m !! 1%Z = Some (Some l) /\ 1%Z ∈ chain
            /\ pitch = link_pitch l /\ yaw = link_yaw l
            /\ exceeds_half_pi l = true.
Proof.
  unfold loop_body. intros Hbody Hin.
  destruct (chain !! i) as [k |] eqn:Hk; [| discriminate].
  destruct (m !! k) as [[l |] |] eqn:Hl; try discriminate.
  cbn [getDirection getR fst snd] in Hbody. fold (exceeds_half_pi l) in Hbody.
  destruct (bool_decide (k = 1%Z) && exceeds_half_pi l) eqn:Hchk.
  - injection Hbody as <- <-. apply list_elem_of_singleton in Hin.
    injection Hin as -> ->.
    apply andb_true_iff in Hchk as [Hk1 Hex].
    apply bool_decide_eq_true in Hk1. subst k.
    exists l. repeat split; try done. apply (list_elem_of_lookup_2 _ _ _ Hk).
  - destruct acc as [[x y] z].
    destruct (0 <? i)%nat; [| discriminate].
    destruct (checkCollision _ _ _ _ _ _) as [| []]; try discriminate.
    injection Hbody as <- <-. apply list_elem_of_singleton in Hin.
    discriminate Hin.
Qed.

Lemma position_loop_domain_report m (chain : list Z) (n i : nat) (acc : pos)
    diags (p : pos) (pitch yaw : D) :
  position_loop m chain n i acc = Ret (diags, p) ->
  DomainViolation pitch yaw ∈ diags ->
  exists l, m !! 1%Z = Some (Some l) /\ 1%Z ∈ chain
            /\ pitch = link_pitch l /\ yaw = link_yaw l
            /\ exceeds_half_pi l = true.
Proof.
  revert i acc. induction n as [| n IH]; intros i acc Hrun Hin.
  - injection Hrun as <- <-. apply elem_of_nil in Hin. done.
  - rewrite position_loop_S in Hrun.
    destruct (loop_body m chain i acc) as [| [acc' | [diags' p']]] eqn:Hbody;
      [discriminate | by apply (IH (S i) acc') |].
    injection Hrun as -> ->.
    apply (loop_body_domain_report _ _ _ _ _ _ _ _ Hbody Hin).
Qed.

Lemma Walk_base_link_last m id ls l :
  Walk m id ls 0%Z -> (1%Z, l) ∈ ls -> link_prevId l = 0%Z ->
  exists ls', ls = ls' ++ [(1%Z, l)].
Proof.
  intros Hw. remember 0%Z as e eqn:He.
  induction Hw as [| id l0 ls e Hne Hl Hw IH]; intros Hin Hprev.
  - apply elem_of_nil in Hin. done.
  - apply elem_of_cons in Hin as [Heq | Hin].
    + injection Heq as <- <-. unfold getPrevId in Hw. rewrite Hprev in Hw.
      inversion Hw as [| ? ? ? ? Hne0]; subst; [by exists [] | done].
    + destruct (IH He Hin Hprev) as [ls' ->]. by exists ((id, l0) :: ls').
Qed.

(** C4, amended: in a chain that ends at the base and holds link 1 with
    pitch or yaw above [pi/2], [calculatePosition] returns [(0, 0, 0)]
    whatever the other links' angles are, reporting the violated bound
    unless a link placed before link 1 collided first, and always reporting
    it when link 1 is attached to the base.  Only the upper bound is tested,
    and only on link 1: every reported violation carries the angles of the
    link registered as 1. *)
Theorem calculatePosition_domain ndebug m id :
  (forall ls l (a : nat),
     is_Some (m !! id) ->
     Walk m id ls 0%Z ->
     reverse ls !! a = Some (1%Z, l) ->
     exceeds_half_pi l = true ->
     exists n, forall fuel, n <= fuel ->
       exists diags,
         calculatePosition ndebug fuel m id = Some (Ret (diags, origin))
         /\ (diags = [DomainViolation (link_pitch l) (link_yaw l)]
             \/ exists j k x y z,
                  j < a /\ (reverse ls).*1 !! j = Some k
                  /\ diags = [Collision k x y z])
         /\ (link_prevId l = 0%Z ->
             diags = [DomainViolation (link_pitch l) (link_yaw l)]))
  /\ (forall fuel diags (p : pos) (pitch yaw : D),
        calculatePosition ndebug fuel m id = Some (Ret (diags, p)) ->
        DomainViolation pitch yaw ∈ diags ->
        exists l, m !! 1%Z = Some (Some l)
                  /\ pitch = link_pitch l /\ yaw = link_yaw l
                  /\ exceeds_half_pi l = true).
Proof.
  split.
  - intros ls l a Hreg Hw Ha Hex. exists (S (length ls)). intros fuel Hfuel.
    rewrite (calculatePosition_walk _ _ _ _ _ _ Hreg Hw) by (done || by left).
    rewrite bool_decide_eq_false_2 by tauto.
    destruct (position_loop_domain m (reverse ls) (length ls) 0 a l origin)
      as (diags & Hrun & Hwhat);
      [apply resolved_reverse, (Walk_resolved _ _ _ _ Hw)
      | by rewrite length_reverse | lia | done | done |].
    exists diags. rewrite Hrun. split; [done |]. split.
    + destruct Hwhat as [-> | (j & k & x & y & z & Hj & Hk & ->)];
        [by left | right]. exists j, k, x, y, z. split; [lia | done].
    + intros Hprev.
      destruct (Walk_base_link_last m id ls l Hw) as [ls' Hls];
        [apply elem_of_reverse, (list_elem_of_lookup_2 _ _ _ Ha) | done |].
      assert (reverse ls !! 0 = Some (1%Z, l)) as Hroot
        by (rewrite Hls, reverse_app; done).
      destruct (position_loop_domain m (reverse ls) (length ls) 0 0 l origin)
        as (diags' & Hrun' & Hwhat');
        [apply resolved_reverse, (Walk_resolved _ _ _ _ Hw)
        | by rewrite length_reverse | lia | done | done |].
      rewrite Hrun in Hrun'. injection Hrun' as <-.
      destruct Hwhat' as [-> | (j & _ & _ & _ & _ & Hj & _)]; [done | lia].
  - intros fuel diags p pitch yaw Hrun Hin. unfold calculatePosition in Hrun.
    destruct (negb ndebug && negb (count m id)); [discriminate |].
    destruct (walk fuel m id []) as [[| [e chain]] |]; try discriminate.
    case_bool_decide.
    + injection Hrun as <- <-. apply list_elem_of_singleton in Hin.
      discriminate Hin.
    + injection Hrun as Hrun.
      destruct (position_loop_domain_report _ _ _ _ _ _ _ _ _ Hrun Hin)
        as (l & Hl & _ & Hp & Hy & Hex). eauto.
Qed.

(** *** Termination of the walk *)

Lemma Walk_functional m id ls e ls' e' :
  Walk m id ls e -> walk_stops m e \/ walk_faults m e ->
  Walk m id ls' e' -> walk_stops m e' \/ walk_faults m e' ->
  ls = ls' /\ e = e'.
Proof.
  intros Hw Hend. revert ls' e'.
  induction Hw as [id | id l ls e Hne Hl Hw IH]; intros ls' e' Hw' Hend'.
  - inversion Hw' as [| ? l' ? ? Hne' Hl']; subst; [done |].
    destruct Hend as [[? | Hnone] | [_ Hnull]]; congruence.
  - inversion Hw' as [| ? l' ? ? Hne' Hl' Hw'']; subst.
    + destruct Hend' as [[? | Hnone] | [_ Hnull]]; congruence.
    + assert (l' = l) as -> by congruence.
      destruct (IH Hend _ _ Hw'' Hend') as [-> ->]. done.
Qed.

Lemma Walk_from_member m id ls e k l :
  Walk m id ls e -> (k, l) ∈ ls ->
  exists pre suf, ls = pre ++ (k, l) :: suf /\ Walk m k ((k, l) :: suf) e.
Proof.
  induction 1 as [| id l0 ls e Hne Hl Hw IH]; intros Hin.
  - apply elem_of_nil in Hin. done.
  - apply elem_of_cons in Hin as [Heq | Hin].
    + injection Heq as -> ->. exists [], ls. split; [done |].
      by constructor.
    + destruct (IH Hin) as (pre & suf & -> & Hk).
      exists ((id, l0) :: pre), suf. done.
Qed.

(** A walk that comes to an end visits no id twice. *)
Lemma Walk_NoDup m id ls e :
  Walk m id ls e -> walk_stops m e \/ walk_faults m e -> NoDup ls.*1.
Proof.
  intros Hw Hend.
  induction Hw as [id | id l ls e Hne Hl Hw IH]; [constructor |].
  cbn [fmap list_fmap fst]. constructor; [| by apply IH].
  intros Hin. apply list_elem_of_fmap in Hin as ([k l'] & Hk & Hin).
  cbn in Hk. subst k.
  destruct (Walk_from_member _ _ _ _ _ _ Hw Hin) as (pre & suf & Hls & Hsuf).
  destruct (Walk_functional m id ((id, l) :: ls) e ((id, l') :: suf) e)
    as [Heq _]; [by constructor | done | done | done |].
  injection Heq as _ Heq. apply (f_equal length) in Hls.
  rewrite length_app, Heq in Hls. cbn [length] in Hls. lia.
Qed.

Lemma Walk_length_le_size m id ls e :
  Walk m id ls e -> walk_stops m e \/ walk_faults m e -> length ls <= size m.
Proof.
  intros Hw Hend.
  rewrite <- (length_fmap fst ls), <- size_dom.
  change (size (dom m)) with (length (elements (dom m))).
  apply submseteq_length, NoDup_submseteq;
    [apply (Walk_NoDup _ _ _ _ Hw Hend) |].
  intros k Hk. apply elem_of_elements, elem_of_dom.
  apply list_elem_of_fmap in Hk as ([k' l] & -> & Hin).
  apply list_elem_of_lookup in Hin as [i Hi]. cbn [fst].
  rewrite (resolved_lookup _ _ _ _ _ (Walk_resolved _ _ _ _ Hw) Hi). done.
Qed.

Lemma walk_Walk_fault m id ls e chain (extra : nat) :
  Walk m id ls e -> walk_faults m e ->
  walk (S (length ls + extra)) m id chain = Some Fault.
Proof.
  intros Hw [Hne0 Hnull]. revert chain.
  induction Hw as [id | id l ls e Hne Hl Hw IH]; intros chain.
  - rewrite walk_S, bool_decide_eq_true_2 by done.
    assert (count m id = true) as -> by (apply count_true; eauto).
    cbn [andb]. rewrite Hnull. done.
  - cbn [length Nat.add]. rewrite walk_S.
    rewrite bool_decide_eq_true_2 by done.
    assert (count m id = true) as -> by (apply count_true; eauto).
    cbn [andb]. rewrite Hl. apply (IH Hne0 Hnull).
Qed.

(** C3, amended: the walk of [calculatePosition] comes to an end whenever
    following [prevId] from the target arrives at the base, at an id that is
    not registered, or at a null entry (where it faults); it then visits at
    most as many links as the registry holds.  Target id 0 gives the empty
    chain at once.  Nothing bounds the walk otherwise. *)
Theorem walk_terminates m id :
  (forall ls e,
     Walk m id ls e -> walk_stops m e \/ walk_faults m e ->
     length ls <= size m
     /\ exists r, forall fuel, S (length ls) <= fuel ->
          walk fuel m id [] = Some r
          /\ (walk_stops m e -> r = Ret (e, ls.*1)))
  /\ (forall fuel, walk (S fuel) m 0%Z [] = Some (Ret (0%Z, []))).
Proof.
  split.
  - intros ls e Hw Hend. split; [apply (Walk_length_le_size _ _ _ _ Hw Hend) |].
    destruct Hend as [Hstop | Hfault].
    + exists (Ret (e, ls.*1)). intros fuel Hfuel.
      replace fuel with (S (length ls + (fuel - S (length ls)))) by lia.
      rewrite (walk_Walk _ _ _ _ _ _ Hw Hstop). done.
    + exists Fault. intros fuel Hfuel.
      replace fuel with (S (length ls + (fuel - S (length ls)))) by lia.
      rewrite (walk_Walk_fault _ _ _ _ _ _ Hw Hfault). split; [done |].
      destruct Hfault as [Hne Hnull]. intros [? | Hnone]; congruence.
  - intros fuel. rewrite walk_S, bool_decide_eq_false_2 by tauto. done.
Qed.

(** *** The collision check, seen from [calculatePosition] *)




(** *** The registry operations *)

Lemma addLink_counted m l :
  count m (getId l) = true ->
  addLink m (Some l) = Ret (m, [DuplicateId (getId l)]).
Proof. intros Hcount. unfold addLink. rewrite Hcount. done. Qed.

(** C7: [addLink] with a link whose id is already registered reports the
    duplicate id and leaves the registry, hence the link stored under that id
    and its orientation, as it was. *)
Theorem addLink_duplicate m l :
  is_Some (m !! getId l) ->
  addLink m (Some l) = Ret (m, [DuplicateId (getId l)]).
Proof. intros Hreg. apply addLink_counted, count_true, Hreg. Qed.

Lemma subscript_absent m id :
  m !! id = None -> subscript m id = (<[id := None]> m, None).
Proof. intros Hnone. unfold subscript. rewrite Hnone. done. Qed.

Lemma subscript_present m id (p : option link) :
  m !! id = Some p -> subscript m id = (m, p).
Proof. intros Hp. unfold subscript. rewrite Hp. done. Qed.

(** C8: [openGripper], [closeGripper] and [takePhoto] on an id that is not
    registered add that id to the registry with a null link and report the
    wrong capability; the id then counts as present, so that [addLink] of a
    link with that id is refused as a duplicate. *)
Theorem capability_on_absent_id m id (angle : D) l :
  m !! id = None ->
  openGripper m id angle = (<[id := None]> m, [NotAGripper id])
  /\ closeGripper m id = (<[id := None]> m, [NotAGripper id])
  /\ takePhoto m id = (<[id := None]> m, [NotACamera id])
  /\ <[id := None]> m ≠ m
  /\ count (<[id := None]> m) id = true
  /\ (getId l = id ->
      addLink (<[id := None]> m) (Some l)
      = Ret (<[id := None]> m, [DuplicateId id])).
Proof.
  intros Hnone. unfold openGripper, closeGripper, takePhoto.
  rewrite (subscript_absent _ _ Hnone). cbn [cast_Gripper cast_Camera].
  assert (is_Some (<[id := None]> m !! id)) as Hnow
    by (rewrite lookup_insert_eq; eauto).
  repeat split.
  - intros Heq. rewrite Heq, Hnone in Hnow. by apply is_Some_None in Hnow.
  - by apply count_true.
  - intros <-. by apply addLink_counted, count_true.
Qed.

(** C10: on an id registered with a link that is no gripper, [openGripper]
    and [closeGripper] report that it is not a gripper, and on one that is no
    camera [takePhoto] reports that it is not a camera; the registry and
    every link in it stay as they were. *)
Theorem capability_mismatch m id l (angle : D) :
  m !! id = Some (Some l) ->
  ((forall g, link_kind l ≠ GripperLink g) ->
   openGripper m id angle = (m, [NotAGripper id])
   /\ closeGripper m id = (m, [NotAGripper id]))
  /\ ((forall c, link_kind l ≠ CameraLink c) ->
      takePhoto m id = (m, [NotACamera id])).
Proof.
  intros Hl. unfold openGripper, closeGripper, takePhoto.
  rewrite (subscript_present _ _ _ Hl). cbn [cast_Gripper cast_Camera].
  split; intros Hkind; destruct (link_kind l) as [| g | c] eqn:Hk;
    try done; exfalso; eapply Hkind; done.
Qed.

(** *** Roll *)

Section Roll.
Variables m1 m2 : registry.
Hypothesis Hroll : registry_same_but_roll m1 m2.

Ltac roll_cases k :=
  let Hk := fresh "Hk" in
  pose proof (Hroll k) as Hk;
  destruct (m1 !! k) as [[?a |] |], (m2 !! k) as [[?b |] |];
  try done;
  try (destruct Hk as (Hid & Hprev & Hr & Hpitch & Hyaw & Hkind)).

Lemma roll_count id : count m1 id = count m2 id.
Proof.
  unfold count. apply bool_decide_ext.
  pose proof (Hroll id) as Hk.
  destruct (m1 !! id) as [[a |] |], (m2 !! id) as [[b |] |];
    try done; split; intros _; eauto.
Qed.

Lemma roll_walk (fuel : nat) id (chain : list Z) :
  walk fuel m1 id chain = walk fuel m2 id chain.
Proof.
  revert id chain. induction fuel as [| fuel IH]; intros id chain; [done |].
  rewrite !walk_S, roll_count.
  destruct (bool_decide (id ≠ 0%Z) && count m2 id); [| done].
  roll_cases id. unfold getPrevId. rewrite Hprev. apply IH.
Qed.

Lemma roll_prev_loop (chain : list Z) (n j : nat) (prev : pos) :
  prev_loop m1 chain n j prev = prev_loop m2 chain n j prev.
Proof.
  revert j prev. induction n as [| n IH]; intros j prev; [done |].
  cbn [prev_loop]. destruct (chain !! j) as [k |]; [| done].
  roll_cases k. unfold getR. cbn [getDirection fst snd].
  rewrite Hr, Hpitch, Hyaw. destruct prev as [[px py] pz]. apply IH.
Qed.

Lemma roll_collision_loop (chain : list Z) (n i : nat) (current : pos) :
  collision_loop m1 chain n i current = collision_loop m2 chain n i current.
Proof.
  revert i. induction n as [| n IH]; intros i; [done |].
  cbn [collision_loop]. rewrite roll_prev_loop.
  destruct (prev_loop m2 chain (S i) 0 _) as [| [[px py] pz]]; [done |].
  destruct current as [[cx cy] cz]. destruct (dlt _ lit_0_1); [done |].
  apply IH.
Qed.

Lemma roll_loop_body (chain : list Z) (i : nat) (acc : pos) :
  loop_body m1 chain i acc = loop_body m2 chain i acc.
Proof.
  unfold loop_body. destruct (chain !! i) as [k |]; [| done].
  roll_cases k. unfold getR. cbn [getDirection fst snd].
  rewrite Hr, Hpitch, Hyaw. unfold checkCollision.
  destruct acc as [[x y] z]. rewrite roll_collision_loop. done.
Qed.

Lemma roll_position_loop (chain : list Z) (n i : nat) (acc : pos) :
  position_loop m1 chain n i acc = position_loop m2 chain n i acc.
Proof.
  revert i acc. induction n as [| n IH]; intros i acc; [done |].
  rewrite !position_loop_S, roll_loop_body.
  destruct (loop_body m2 chain i acc) as [| [acc' | out]]; try done.
Qed.

End Roll.

(** C9: two registries that differ at most in the roll stored in their
    links give the same result of [calculatePosition], position and
    diagnostics, for every target id. *)
Theorem calculatePosition_ignores_roll m1 m2 ndebug (fuel : nat) id :
  registry_same_but_roll m1 m2 ->
  calculatePosition ndebug fuel m1 id = calculatePosition ndebug fuel m2 id.
Proof.
  intros Hroll. unfold calculatePosition.
  rewrite (roll_count _ _ Hroll), (roll_walk _ _ Hroll).
  destruct (negb ndebug && negb (count m2 id)); [done |].
  destruct (walk fuel m2 id []) as [[| [e chain]] |]; try done.
  case_bool_decide; [done |].
  rewrite (roll_position_loop _ _ Hroll). done.
Qed.

End Properties.

(** ** The idealised doubles at work *)

Section Reals.
Local Open Scope R_scope.

#[export] Instance R_DoubleOrder : DoubleOrder R.
Proof.
  intros a b Hle. cbn in *. apply bool_decide_eq_true in Hle.
  apply bool_decide_eq_false. lra.
Qed.

Lemma powerRZ_2 (x : R) : powerRZ x 2 = x * x.
Proof.
  unfold powerRZ. change (Pos.to_nat 2) with 2%nat. cbn [pow]. ring.
Qed.

Lemma R_distance_self (p : R * R * R) : distance p p = 0.
Proof.
  destruct p as [[x y] z]. unfold distance.
  cbn [fst snd fsqrt dadd fpow dsub R_Double].
  rewrite !powerRZ_2, !Rminus_diag, !Rmult_0_l, !Rplus_0_l. apply sqrt_0.
Qed.

Lemma R_too_close_self (p : R * R * R) : dlt (distance p p) lit_0_1 = true.
Proof.
  rewrite R_distance_self. cbn [dlt lit_0_1 R_Double].
  apply bool_decide_eq_true. lra.
Qed.

(** *** C7, C8, C10: the registry operations on concrete registries *)

Lemma addLink_duplicate_witness :
  addLink two_links (Some (plain 1 0 5 1 1 1))
  = Ret (two_links, [DuplicateId 1%Z]).
Proof.
  apply (addLink_duplicate two_links (plain 1 0 5 1 1 1)).
  exists (Some upright_1). reflexivity.
Defined.

Lemma capability_on_absent_id_witness :
  openGripper (∅ : gmap Z (option (MovableLink R R nat))) 5 1
  = (<[5%Z := None]> ∅, [NotAGripper 5%Z])
  /\ addLink (<[5%Z := None]> ∅) (Some (plain 5 0 1 0 0 0))
     = Ret (<[5%Z := None]> ∅, [DuplicateId 5%Z]).
Proof.
  destruct (capability_on_absent_id
              (∅ : gmap Z (option (MovableLink R R nat))) 5 1
              (plain 5 0 1 0 0 0) (lookup_empty _))
    as (Hopen & _ & _ & _ & _ & Hadd).
  split; [exact Hopen | exact (Hadd eq_refl)].
Defined.

Lemma capability_mismatch_witness :
  openGripper two_links 1 1 = (two_links, [NotAGripper 1%Z])
  /\ takePhoto two_links 1 = (two_links, [NotACamera 1%Z]).
Proof.
  destruct (capability_mismatch two_links 1 upright_1 1 eq_refl)
    as [Hgrip Hcam].
  split.
  - apply Hgrip. intros g. discriminate.
  - apply Hcam. intros c. discriminate.
Defined.

(** *** C5, C6: chains that do not reach a registered base link *)

Lemma calculatePosition_incomplete_witness :
  exists n, forall fuel, (n <= fuel)%nat ->
    calculatePosition false fuel dangling 2
    = Some (Ret ([IncompleteChain 2%Z], origin)).
Proof.
  apply (calculatePosition_incomplete false dangling 2
           [(2%Z, dangling_2)] 7).
  - exists (Some dangling_2). reflexivity.
  - apply Walk_link; [discriminate | reflexivity | apply Walk_end].
  - discriminate.
  - reflexivity.
Defined.

Lemma calculatePosition_base_witness :
  calculatePosition true 1 (∅ : gmap Z (option (MovableLink R R nat))) 0
  = Some (Ret ([], origin)).
Proof. apply calculatePosition_base. left. reflexivity. Defined.

(** C6 as stated fails: with assertions on and id 0 not registered, the
    call with target 0 stops at the assertion, whatever the fuel. *)
Lemma calculatePosition_base_unregistered :
  calculatePosition false 1 (∅ : gmap Z (option (MovableLink R R nat))) 0
  = Some Fault
  /\ ~ exists fuel,
         calculatePosition false fuel
           (∅ : gmap Z (option (MovableLink R R nat))) 0
         = Some (Ret ([], origin)).
Proof. split; [reflexivity |]. intros [fuel Hrun]. discriminate Hrun. Qed.

(** *** C3: a cycle of [prevId] *)

Lemma cyclic_walk_runs_on (fuel : nat) (chain : list Z) :
  walk fuel cyclic 2 chain = None /\ walk fuel cyclic 3 chain = None.
Proof.
  revert chain. induction fuel as [| fuel IH]; intros chain; [done |].
  rewrite !walk_S.
  change (cyclic !! 2%Z) with (Some (Some (plain 2 3 1 0 0 0))).
  change (cyclic !! 3%Z) with (Some (Some (plain 3 2 1 0 0 0))).
  change (count cyclic 2) with true. change (count cyclic 3) with true.
  rewrite !bool_decide_eq_true_2 by discriminate. cbn [andb getPrevId link_prevId plain].
  split; apply IH.
Qed.

(** C3 as stated fails: on the registry in which links 2 and 3 name each
    other, no amount of fuel lets the walk, or [calculatePosition], come to
    an end. *)
Lemma cyclic_chain_never_resolves :
  ~ (exists fuel r, walk fuel cyclic 2 [] = Some r)
  /\ ~ (exists fuel r, calculatePosition false fuel cyclic 2 = Some r).
Proof.
  split.
  - intros (fuel & r & Hwalk).
    rewrite (proj1 (cyclic_walk_runs_on fuel [])) in Hwalk. discriminate.
  - intros (fuel & r & Hrun). unfold calculatePosition in Hrun.
    change (count cyclic 2) with true in Hrun. cbn [negb andb] in Hrun.
    rewrite (proj1 (cyclic_walk_runs_on fuel [])) in Hrun. discriminate.
Qed.

Lemma walk_terminates_witness :
  (length [(2%Z, dangling_2)] <= size dangling)%nat
  /\ exists r, forall fuel, (2 <= fuel)%nat ->
       walk fuel dangling 2 [] = Some r
       /\ (walk_stops dangling 7 -> r = Ret (7%Z, [2%Z])).
Proof.
  apply (proj1 (walk_terminates dangling 2) [(2%Z, dangling_2)] 7%Z).
  - apply Walk_link; [discriminate | reflexivity | apply Walk_end].
  - left. right. reflexivity.
Defined.

(** *** C4: the bound on link 1 is an upper bound *)

Lemma half_pi_above (x : R) :
  x <= 0 -> dgt x (ddiv M_PI (of_int 2)) = false.
Proof.
  intros Hx. unfold dgt. cbn [dlt ddiv M_PI of_int R_Double].
  apply bool_decide_eq_false. lra.
Qed.

(** C4 as stated fails: link 1 with pitch [-1], outside [[0, pi/2]], is
    placed without any report. *)
Lemma negative_pitch_not_rejected :
  ~ in_domain negative_pitch_1
  /\ calculatePosition false 2 negative_pitch 1
     = Some (Ret ([], chain_position [negative_pitch_1])).
Proof.
  split.
  - intros (Hlow & _). cbn in Hlow. apply bool_decide_eq_true in Hlow. lra.
  - rewrite (calculatePosition_walk false negative_pitch 1
               [(1%Z, negative_pitch_1)] 0 2).
    + rewrite bool_decide_eq_false_2 by tauto. f_equal.
      apply (position_loop_sum negative_pitch [(1%Z, negative_pitch_1)] 1 0).
      * repeat constructor.
      * reflexivity.
      * intros [| j] l Hj; [| done]. injection Hj as <-.
        unfold exceeds_half_pi. rewrite !half_pi_above; [done | |];
          cbn [link_yaw link_pitch negative_pitch_1 plain]; lra.
      * intros a b Hab. cbn [length] in Hab. lia.
    + exists (Some negative_pitch_1). reflexivity.
    + apply Walk_link; [discriminate | reflexivity | apply Walk_end].
    + left. reflexivity.
    + cbn [length]. lia.
Qed.

Lemma calculatePosition_domain_witness :
  exists n, forall fuel, (n <= fuel)%nat ->
    exists diags,
      calculatePosition false fuel
        {[ 1%Z := Some (plain 1 0 1 2 0 0) ]} 1
      = Some (Ret (diags, origin))
      /\ diags = [DomainViolation 2 0].
Proof.
  destruct (proj1 (calculatePosition_domain false
                     {[ 1%Z := Some (plain 1 0 1 2 0 0) ]} 1)
              [(1%Z, plain 1 0 1 2 0 0)] (plain 1 0 1 2 0 0) 0%nat)
    as [n Hn].
  - exists (Some (plain 1 0 1 2 0 0)). reflexivity.
  - apply Walk_link; [discriminate | reflexivity | apply Walk_end].
  - reflexivity.
  - unfold exceeds_half_pi, dgt.
    cbn [dlt ddiv M_PI of_int R_Double link_pitch link_yaw plain].
    rewrite bool_decide_eq_true_2 by lra. reflexivity.
  - exists n. intros fuel Hfuel.
    destruct (Hn fuel Hfuel) as (diags & Hrun & _ & Hbase).
    exists diags. split; [exact Hrun | exact (Hbase eq_refl)].
Defined.

(** *** C1, C9: positions on concrete chains *)

Ltac real_fields :=
  cbn [link_r link_pitch link_yaw plain upright_1 upright_2 zero_length_2
       dadd dsub dmul ddiv fcos fsin fsqrt fpow dlt dle lit_0_0 lit_0_1
       M_PI of_int R_Double fst snd].

Lemma triple_eq (a b c a' b' c' : R) :
  a = a' -> b = b' -> c = c' -> (a, b, c) = (a', b', c').
Proof. congruence. Qed.

Lemma upright_positions :
  position_at [(1%Z, upright_1); (2%Z, upright_2)] 0 = (0, 0, 1)
  /\ position_at [(1%Z, upright_1); (2%Z, upright_2)] 1 = (0, 0, 2).
Proof.
  unfold position_at, chain_position, origin.
  cbn [fmap list_fmap take fold_left]. unfold vadd, link_displacement.
  real_fields. rewrite cos_0, sin_0.
  split; apply triple_eq; ring.
Qed.

Lemma calculatePosition_sum_witness :
  exists n, forall fuel, (n <= fuel)%nat ->
    calculatePosition false fuel two_links 2
    = Some (Ret ([], chain_position [upright_1; upright_2])).
Proof.
  apply (calculatePosition_sum false two_links 2
           [(2%Z, upright_2); (1%Z, upright_1)]).
  - exists (Some upright_2). reflexivity.
  - apply Walk_link; [discriminate | reflexivity |].
    apply Walk_link; [discriminate | reflexivity | apply Walk_end].
  - intros l Hl.
    assert (l = upright_1) as ->.
    { apply elem_of_cons in Hl as [Hl | Hl]; [discriminate Hl |].
      apply list_elem_of_singleton in Hl. injection Hl as ->. reflexivity. }
    unfold in_domain. real_fields.
    repeat split; apply bool_decide_eq_true; lra.
  - intros a b Hab. cbn [length] in Hab.
    assert (a = 1%nat /\ b = 0%nat) as [-> ->] by lia.
    change (reverse [(2%Z, upright_2); (1%Z, upright_1)])
      with [(1%Z, upright_1); (2%Z, upright_2)].
    destruct upright_positions as [-> ->].
    unfold distance. real_fields. rewrite !powerRZ_2.
    replace (sqrt ((0 - 0) * (0 - 0) + (0 - 0) * (0 - 0) + (2 - 1) * (2 - 1)))
      with 1 by (rewrite <- sqrt_1 at 1; f_equal; ring).
    apply bool_decide_eq_true. lra.
Defined.

(** The zero-length link 2 on top of link 1: the call for link 2 ends with
    the collision report. *)
Example folded_links_collide :
  exists n, forall fuel, (n <= fuel)%nat ->
    exists k (x y z : R),
      calculatePosition false fuel folded_links 2
      = Some (Ret ([Collision k x y z], origin)).
Proof.
  apply (calculatePosition_collision false folded_links 2
           [(2%Z, zero_length_2); (1%Z, upright_1)]).
  - exists (Some zero_length_2). reflexivity.
  - apply Walk_link; [discriminate | reflexivity |].
    apply Walk_link; [discriminate | reflexivity | apply Walk_end].
  - intros l Hl.
    assert (l = upright_1) as ->.
    { apply elem_of_cons in Hl as [Hl | Hl]; [discriminate Hl |].
      apply list_elem_of_singleton in Hl. injection Hl as ->. reflexivity. }
    unfold exceeds_half_pi. rewrite !half_pi_above; [done | |];
      cbn [link_yaw link_pitch upright_1 plain]; lra.
  - exists 1%nat, 0%nat. split; [cbn [length]; lia |].
    change (reverse [(2%Z, zero_length_2); (1%Z, upright_1)])
      with [(1%Z, upright_1); (2%Z, zero_length_2)].
    replace (position_at [(1%Z, upright_1); (2%Z, zero_length_2)] 0)
      with (position_at [(1%Z, upright_1); (2%Z, zero_length_2)] 1).
    + apply R_too_close_self.
    + unfold position_at, chain_position, origin.
      cbn [fmap list_fmap take fold_left]. unfold vadd, link_displacement.
      real_fields. apply triple_eq; ring.
Qed.

Lemma calculatePosition_ignores_roll_witness :
  calculatePosition false 5 {[ 1%Z := Some upright_1 ]} 1
  = calculatePosition false 5 {[ 1%Z := Some rolled_1 ]} 1.
Proof.
  apply calculatePosition_ignores_roll. intros id.
  destruct (decide (id = 1%Z)) as [-> | Hne].
  - rewrite !lookup_singleton_eq. repeat split.
  - rewrite !lookup_singleton_ne by done. exact I.
Defined.

End Reals.

(** ** The collision check on binary64 doubles *)

Module Binary64Facts.
Import Floats Binary64.






End Binary64Facts.

(** * Further properties of the registry and of [calculatePosition] *)

Section Coverage.
Context {D G C : Type} `{Double D} `{Capability D G C}.

Local Abbreviation link := (MovableLink D G C).
Local Abbreviation registry := (gmap Z (option (MovableLink D G C))).
Local Abbreviation pos := (D * D * D)%type.

Implicit Types (m : registry) (id e k : Z) (l : link) (ls rs : list (Z * link)).

(** ** Registries related link by link *)

Lemma registry_related_weaken (P Q : link -> link -> Prop) m1 m2 :
  (forall a b, P a b -> Q a b) ->
  registry_related P m1 m2 -> registry_related Q m1 m2.
Proof.
  intros HPQ Hrel id. specialize (Hrel id).
  destruct (m1 !! id) as [[a |] |], (m2 !! id) as [[b |] |]; auto.
Qed.

Lemma registry_related_insert (P : link -> link -> Prop) m id l l' :
  (forall a, P a a) ->
  m !! id = Some (Some l) -> P l l' ->
  registry_related P m (<[id := Some l']> m).
Proof.
  intros Hrefl Hl HP k. destruct (decide (k = id)) as [-> | Hne].
  - rewrite lookup_insert_eq, Hl. done.
  - rewrite lookup_insert_ne by done. destruct (m !! k) as [[a |] |]; auto.
Qed.

Lemma registry_related_refl (P : link -> link -> Prop) m :
  (forall a, P a a) -> registry_related P m m.
Proof. intros Hrefl k. destruct (m !! k) as [[a |] |]; auto. Qed.

Section Related.
Variables m1 m2 : registry.

Ltac related_cases Hrel k :=
  let Hk := fresh "Hk" in
  pose proof (Hrel k) as Hk;
  destruct (m1 !! k) as [[?a |] |], (m2 !! k) as [[?b |] |];
  try done.

Lemma related_count (P : link -> link -> Prop) id :
  registry_related P m1 m2 -> count m1 id = count m2 id.
Proof.
  intros Hrel. unfold count. apply bool_decide_ext.
  related_cases Hrel id; split; intros _; eauto.
Qed.

Lemma related_walk (fuel : nat) id (chain : list Z) :
  registry_related same_prevId m1 m2 ->
  walk fuel m1 id chain = walk fuel m2 id chain.
Proof.
  intros Hrel. revert id chain.
  induction fuel as [| fuel IH]; intros id chain; [done |].
  rewrite !walk_S, (related_count _ _ Hrel).
  destruct (bool_decide (id ≠ 0%Z) && count m2 id); [| done].
  related_cases Hrel id. unfold getPrevId. rewrite Hk. apply IH.
Qed.

Hypothesis Hkin : registry_related same_kinematics m1 m2.

Lemma related_prev_loop (chain : list Z) (n j : nat) (prev : pos) :
  prev_loop m1 chain n j prev = prev_loop m2 chain n j prev.
Proof.
  revert j prev. induction n as [| n IH]; intros j prev; [done |].
  cbn [prev_loop]. destruct (chain !! j) as [k |]; [| done].
  related_cases Hkin k. destruct Hk as (_ & Hr & Hpitch & Hyaw).
  unfold getR. cbn [getDirection fst snd].
  rewrite Hr, Hpitch, Hyaw. destruct prev as [[px py] pz]. apply IH.
Qed.

Lemma related_collision_loop (chain : list Z) (n i : nat) (current : pos) :
  collision_loop m1 chain n i current = collision_loop m2 chain n i current.
Proof.
  revert i. induction n as [| n IH]; intros i; [done |].
  cbn [collision_loop]. rewrite related_prev_loop.
  destruct (prev_loop m2 chain (S i) 0 _) as [| [[px py] pz]]; [done |].
  destruct current as [[cx cy] cz]. destruct (dlt _ lit_0_1); [done |].
  apply IH.
Qed.

Lemma related_loop_body (chain : list Z) (i : nat) (acc : pos) :
  loop_body m1 chain i acc = loop_body m2 chain i acc.
Proof.
  unfold loop_body. destruct (chain !! i) as [k |]; [| done].
  related_cases Hkin k. destruct Hk as (_ & Hr & Hpitch & Hyaw).
  unfold getR. cbn [getDirection fst snd].
  rewrite Hr, Hpitch, Hyaw. unfold checkCollision.
  destruct acc as [[x y] z]. rewrite related_collision_loop. done.
Qed.

Lemma related_position_loop (chain : list Z) (n i : nat) (acc : pos) :
  position_loop m1 chain n i acc = position_loop m2 chain n i acc.
Proof.
  revert i acc. induction n as [| n IH]; intros i acc; [done |].
  rewrite !position_loop_S, related_loop_body.
  destruct (loop_body m2 chain i acc) as [| [acc' | out]]; try done.
Qed.

Lemma related_calculatePosition ndebug (fuel : nat) id :
  calculatePosition ndebug fuel m1 id = calculatePosition ndebug fuel m2 id.
Proof.
  assert (registry_related same_prevId m1 m2) as Hprev
    by (apply (registry_related_weaken same_kinematics); [by intros a b [] | done]).
  unfold calculatePosition.
  rewrite (related_count _ _ Hkin), (related_walk _ _ _ Hprev).
  destruct (negb ndebug && negb (count m2 id)); [done |].
  destruct (walk fuel m2 id []) as [[| [e chain]] |]; try done.
  case_bool_decide; [done |].
  rewrite related_position_loop. done.
Qed.

End Related.

(** ** [addLink], [getLink], [setDirection] *)

(** X1: [addLink] of a link whose id is free reports nothing and stores the
    link: [getLink] of that id then returns it, every other id reads as
    before, and the registry has one entry more. *)
Theorem addLink_fresh m l :
  m !! getId l = None ->
  exists m',
    addLink m (Some l) = Ret (m', [])
    /\ getLink m' (getId l) = Some l
    /\ (forall k, k ≠ getId l -> m' !! k = m !! k /\ getLink m' k = getLink m k)
    /\ size m' = S (size m).
Proof.
  intros Hfree. exists (<[getId l := Some l]> m). unfold addLink.
  rewrite (proj2 (count_false m (getId l)) Hfree).
  split; [done |]. split; [| split].
  - unfold getLink. rewrite lookup_insert_eq. done.
  - intros k Hk. unfold getLink. rewrite lookup_insert_ne by done. done.
  - apply map_size_insert_None, Hfree.
Qed.

Lemma well_keyed_insert m k l :
  well_keyed m -> getId l = k -> well_keyed (<[k := Some l]> m).
Proof.
  intros Hwk Hid k' l' Hl'. destruct (decide (k' = k)) as [-> | Hne].
  - rewrite lookup_insert_eq in Hl'. congruence.
  - rewrite lookup_insert_ne in Hl' by done. apply (Hwk _ _ Hl').
Qed.

Lemma well_keyed_subscript m id :
  well_keyed m ->
  well_keyed (subscript m id).1
  /\ forall l, (subscript m id).2 = Some l -> getId l = id.
Proof.
  intros Hwk. unfold subscript.
  destruct (m !! id) as [p |] eqn:Hp; cbn [fst snd].
  - split; [done |]. intros l ->. apply (Hwk _ _ Hp).
  - split; [| done]. intros k l Hl.
    destruct (decide (k = id)) as [-> | Hne].
    + rewrite lookup_insert_eq in Hl. discriminate Hl.
    + rewrite lookup_insert_ne in Hl by done. apply (Hwk _ _ Hl).
Qed.

(** X2: every operation that writes the registry keeps each link stored
    under its own id: [addLink], [setDirection], [openGripper],
    [closeGripper] and [takePhoto] turn a registry with that property into
    one with that property. *)
Theorem operations_keep_well_keyed m :
  well_keyed m ->
  (forall l m' d, addLink m (Some l) = Ret (m', d) -> well_keyed m')
  /\ (forall ndebug id p y r m',
        setDirection ndebug m id p y r = Ret m' -> well_keyed m')
  /\ (forall id angle, well_keyed (openGripper m id angle).1)
  /\ (forall id, well_keyed (closeGripper m id).1)
  /\ (forall id, well_keyed (takePhoto m id).1).
Proof.
  intros Hwk. repeat split.
  - intros l m' d. unfold addLink. destruct (count m (getId l)).
    + intros [= <- _]. done.
    + intros [= <- _]. by apply well_keyed_insert.
  - intros ndebug id p y r m'. unfold setDirection.
    destruct (negb ndebug && negb (count m id)); [discriminate |].
    destruct (well_keyed_subscript m id Hwk) as [Hsub Hid].
    destruct (subscript m id) as [m0 [l |]]; [| discriminate].
    intros [= <-]. apply well_keyed_insert; [done |]. apply (Hid l eq_refl).
  - intros id angle. unfold openGripper.
    destruct (well_keyed_subscript m id Hwk) as [Hsub Hid].
    destruct (subscript m id) as [m0 [l |]]; cbn [cast_Gripper]; [| done].
    destruct (link_kind l); cbn [fst]; try done.
    apply well_keyed_insert; [done |]. apply (Hid l eq_refl).
  - intros id. unfold closeGripper.
    destruct (well_keyed_subscript m id Hwk) as [Hsub Hid].
    destruct (subscript m id) as [m0 [l |]]; cbn [cast_Gripper]; [| done].
    destruct (link_kind l); cbn [fst]; try done.
    apply well_keyed_insert; [done |]. apply (Hid l eq_refl).
  - intros id. unfold takePhoto.
    destruct (well_keyed_subscript m id Hwk) as [Hsub Hid].
    destruct (subscript m id) as [m0 [l |]]; cbn [cast_Camera]; [| done].
    destruct (link_kind l); cbn [fst]; try done.
    apply well_keyed_insert; [done |]. apply (Hid l eq_refl).
Qed.

(** X3: [setDirection] goes through exactly when the id is registered with
    a link: on an id that is not registered it stops at the assertion or,
    with assertions compiled out, at the null pointer that subscripting
    inserts, and on a null entry it dereferences null. *)
Theorem setDirection_ok_iff ndebug m id (p y r : D) :
  (exists m', setDirection ndebug m id p y r = Ret m')
  <-> exists l, m !! id = Some (Some l).
Proof.
  unfold setDirection, subscript, count. split.
  - intros [m' Hset]. destruct (m !! id) as [[l |] |] eqn:Hl; [eauto | |].
    + rewrite andb_false_r in Hset. discriminate Hset.
    + destruct (negb ndebug && _); discriminate Hset.
  - intros [l Hl]. rewrite Hl.
    rewrite bool_decide_eq_true_2 by eauto. rewrite andb_false_r. eauto.
Qed.

(** X4: on a registered link [setDirection] stores the three angles as
    given, whatever their values: [getLink] then returns the link with the
    new pitch, yaw and roll and its old id, predecessor, length and kind;
    every other entry and the set of keys stay as they were. *)
Theorem setDirection_getLink ndebug m id l (p y r : D) :
  m !! id = Some (Some l) ->
  exists m' l',
    setDirection ndebug m id p y r = Ret m'
    /\ getLink m' id = Some l'
    /\ getDirection l' = (p, y) /\ link_roll l' = r
    /\ getId l' = getId l /\ getPrevId l' = getPrevId l
    /\ getR l' = getR l /\ link_kind l' = link_kind l
    /\ (forall k, k ≠ id -> m' !! k = m !! k)
    /\ dom m' = dom m.
Proof.
  intros Hl. exists (<[id := Some (link_setDirection l p y r)]> m),
    (link_setDirection l p y r).
  unfold setDirection, subscript, count. rewrite Hl.
  rewrite bool_decide_eq_true_2 by eauto. rewrite andb_false_r.
  split; [done |]. split; [unfold getLink; by rewrite lookup_insert_eq |].
  do 6 (split; [done |]). split.
  - intros k Hk. by rewrite lookup_insert_ne.
  - apply dom_insert_lookup_L. eauto.
Qed.

(** X5: of two calls of [setDirection] on the same id the second one
    decides: the registry is the one the second call alone would give. *)
Theorem setDirection_twice ndebug m id (p y r p' y' r' : D) m1 :
  setDirection ndebug m id p y r = Ret m1 ->
  setDirection ndebug m1 id p' y' r' = setDirection ndebug m id p' y' r'.
Proof.
  unfold setDirection, subscript, count. intros Hset.
  destruct (m !! id) as [[l |] |] eqn:Hl.
  - rewrite bool_decide_eq_true_2, andb_false_r in Hset by eauto.
    injection Hset as <-. rewrite lookup_insert_eq.
    rewrite !bool_decide_eq_true_2 by eauto. rewrite andb_false_r.
    rewrite insert_insert_eq. done.
  - rewrite andb_false_r in Hset. discriminate Hset.
  - destruct (negb ndebug && _); discriminate Hset.
Qed.

(** ** [openGripper], [closeGripper], [takePhoto] *)

(** X6: on a gripper [openGripper] and [closeGripper], and on a camera
    [takePhoto], report nothing and change the state of that specialization
    only: [getLink] returns the link with its new gripper or camera state and
    every other entry of the registry is as before. *)
Theorem capability_applies m id l :
  m !! id = Some (Some l) ->
  (forall g angle, link_kind l = GripperLink g ->
     exists m1 m2,
       openGripper m id angle = (m1, [])
       /\ getLink m1 id
          = Some (with_kind l (GripperLink (gripper_open angle g)))
       /\ closeGripper m id = (m2, [])
       /\ getLink m2 id = Some (with_kind l (GripperLink (gripper_close g)))
       /\ forall k, k ≠ id -> m1 !! k = m !! k /\ m2 !! k = m !! k)
  /\ (forall c, link_kind l = CameraLink c ->
        exists m',
          takePhoto m id = (m', [])
          /\ getLink m' id = Some (with_kind l (CameraLink (take_a_photo c)))
          /\ forall k, k ≠ id -> m' !! k = m !! k).
Proof.
  intros Hl. unfold openGripper, closeGripper, takePhoto, getLink.
  rewrite (subscript_present _ _ _ Hl). cbn [cast_Gripper cast_Camera].
  split.
  - intros g angle ->. do 2 eexists.
    split; [done |]. split; [by rewrite lookup_insert_eq |].
    split; [done |]. split; [by rewrite lookup_insert_eq |].
    intros k Hk. by rewrite !lookup_insert_ne.
  - intros c ->. eexists.
    split; [done |]. split; [by rewrite lookup_insert_eq |].
    intros k Hk. by rewrite lookup_insert_ne.
Qed.

Lemma same_kinematics_with_kind l (kind : LinkKind G C) :
  same_kinematics l (with_kind l kind).
Proof. done. Qed.

Lemma capability_related m id (angle : D) :
  is_Some (m !! id) ->
  registry_related same_kinematics m (openGripper m id angle).1
  /\ registry_related same_kinematics m (closeGripper m id).1
  /\ registry_related same_kinematics m (takePhoto m id).1.
Proof.
  intros [p Hp]. unfold openGripper, closeGripper, takePhoto.
  rewrite (subscript_present _ _ _ Hp).
  assert (forall a : link, same_kinematics a a) as Hrefl by done.
  destruct p as [l |]; cbn [cast_Gripper cast_Camera];
    [| repeat split; by apply registry_related_refl].
  destruct (link_kind l); cbn [fst]; repeat split;
    (by apply registry_related_refl)
    || (by apply (registry_related_insert _ _ _ l)).
Qed.

(** X7: the gripper and camera operations on a registered id leave every
    result of [calculatePosition] as it was, for every target. *)
Theorem capability_keeps_positions m id (angle : D) ndebug (fuel : nat) t :
  is_Some (m !! id) ->
  calculatePosition ndebug fuel (openGripper m id angle).1 t
  = calculatePosition ndebug fuel m t
  /\ calculatePosition ndebug fuel (closeGripper m id).1 t
     = calculatePosition ndebug fuel m t
  /\ calculatePosition ndebug fuel (takePhoto m id).1 t
     = calculatePosition ndebug fuel m t.
Proof.
  intros Hreg.
  destruct (capability_related m id angle Hreg) as (Ho & Hc & Hp).
  repeat split; symmetry; by apply related_calculatePosition.
Qed.

(** ** Walks in a registry with one entry written *)

Lemma Walk_keys_registered m id ls e k :
  Walk m id ls e -> k ∈ ls.*1 -> exists l, m !! k = Some (Some l).
Proof.
  intros Hw Hk. apply list_elem_of_fmap in Hk as ([k' l] & -> & Hin).
  apply list_elem_of_lookup in Hin as [i Hi]. exists l.
  apply (resolved_lookup _ _ _ _ _ (Walk_resolved _ _ _ _ Hw) Hi).
Qed.

Lemma Walk_insert_other m id ls e k (v : option link) :
  Walk m id ls e -> k ∉ ls.*1 -> Walk (<[k := v]> m) id ls e.
Proof.
  induction 1 as [| id l ls e Hne Hl Hw IH]; intros Hk; [constructor |].
  cbn [fmap list_fmap fst] in Hk. apply not_elem_of_cons in Hk as [Hk1 Hk2].
  constructor; [done | by rewrite lookup_insert_ne | by apply IH].
Qed.

Lemma Walk_insert_fresh m id ls e k (v : option link) :
  Walk m id ls e -> m !! k = None -> Walk (<[k := v]> m) id ls e.
Proof.
  intros Hw Hfree. apply Walk_insert_other; [done |]. intros Hk.
  destruct (Walk_keys_registered _ _ _ _ _ Hw Hk) as [l Hl]. congruence.
Qed.

Lemma calculatePosition_walk_fault ndebug m id ls e (fuel : nat) :
  is_Some (m !! id) -> Walk m id ls e -> walk_faults m e ->
  S (length ls) <= fuel ->
  calculatePosition ndebug fuel m id = Some Fault.
Proof.
  intros Hreg Hw Hfault Hfuel. unfold calculatePosition.
  rewrite (assert_passes _ _ _ Hreg).
  replace fuel with (S (length ls + (fuel - S (length ls)))) by lia.
  rewrite (walk_Walk_fault _ _ _ _ _ _ Hw Hfault). done.
Qed.

(** X8: when the walk from a registered target arrives at an id [e] that is
    not registered, [calculatePosition] reports the incomplete chain; after
    [openGripper], [closeGripper] or [takePhoto] was called on [e], which
    leaves a null entry there, the same call dereferences null. *)
Theorem capability_absent_breaks_chain ndebug m id ls e (angle : D) :
  is_Some (m !! id) ->
  Walk m id ls e ->
  e ≠ 0%Z -> m !! e = None ->
  forall fuel, S (length ls) <= fuel ->
    calculatePosition ndebug fuel m id
    = Some (Ret ([IncompleteChain id], origin))
    /\ calculatePosition ndebug fuel (openGripper m e angle).1 id = Some Fault
    /\ calculatePosition ndebug fuel (closeGripper m e).1 id = Some Fault
    /\ calculatePosition ndebug fuel (takePhoto m e).1 id = Some Fault.
Proof.
  intros Hreg Hw Hne Hnone fuel Hfuel.
  split.
  { rewrite (calculatePosition_walk _ _ _ _ _ _ Hreg Hw) by (done || by right).
    rewrite bool_decide_eq_true_2; done. }
  unfold openGripper, closeGripper, takePhoto.
  rewrite (subscript_absent _ _ Hnone). cbn [cast_Gripper cast_Camera fst].
  assert (calculatePosition ndebug fuel (<[e := None]> m) id = Some Fault)
    as Hrun; [| done].
  apply (calculatePosition_walk_fault _ _ _ ls e).
  - destruct Hreg as [p Hp]. destruct (decide (id = e)) as [-> | Hid].
    + rewrite lookup_insert_eq. eauto.
    + rewrite lookup_insert_ne by done. eauto.
  - by apply Walk_insert_fresh.
  - split; [done | by rewrite lookup_insert_eq].
  - done.
Qed.

(** ** Failures of [calculatePosition] *)

(** X9: for a target that is not registered [calculatePosition] stops at its
    assertion; with assertions compiled out it reports the incomplete chain
    for every such target but 0. *)
Theorem calculatePosition_unregistered m id (fuel : nat) :
  m !! id = None ->
  calculatePosition false fuel m id = Some Fault
  /\ (id ≠ 0%Z ->
      calculatePosition true (S fuel) m id
      = Some (Ret ([IncompleteChain id], origin))).
Proof.
  intros Hnone. unfold calculatePosition.
  rewrite (proj2 (count_false m id) Hnone). split; [done |].
  intros Hne. cbn [negb andb]. rewrite walk_S.
  rewrite (proj2 (count_false m id) Hnone), andb_false_r.
  rewrite bool_decide_eq_true_2; done.
Qed.

(** X10: when the walk from a registered target arrives at a key that is
    registered with a null pointer, the target itself included,
    [calculatePosition] dereferences null instead of reporting anything. *)
Theorem calculatePosition_null_entry ndebug m id ls e :
  Walk m id ls e ->
  e ≠ 0%Z -> m !! e = Some None ->
  exists n, forall fuel, n <= fuel ->
    calculatePosition ndebug fuel m id = Some Fault.
Proof.
  intros Hw Hne Hnull. exists (S (length ls)). intros fuel Hfuel.
  apply (calculatePosition_walk_fault _ _ _ ls e); try done.
  inversion Hw; subst; eauto.
Qed.

Lemma loop_body_return m (chain : list Z) (i : nat) (acc : pos) diags
    (p : pos) :
  loop_body m chain i acc = Ret (Return (diags, p)) ->
  p = origin
  /\ ((exists pitch yaw, diags = [DomainViolation pitch yaw])
      \/ exists k x y z, diags = [Collision k x y z]).
Proof.
  unfold loop_body. intros Hbody.
  destruct (chain !! i) as [k |]; [| discriminate].
  destruct (m !! k) as [[l |] |]; try discriminate.
  destruct (bool_decide (k = 1%Z) && _).
  - injection Hbody as <- <-. eauto.
  - destruct acc as [[x y] z]. destruct (0 <? i)%nat; [| discriminate].
    destruct (checkCollision _ _ _ _ _ _) as [| []]; try discriminate.
    injection Hbody as <- <-. split; [done |]. right. eauto 6.
Qed.

Lemma position_loop_return m (chain : list Z) (n i : nat) (acc : pos) diags
    (p : pos) :
  position_loop m chain n i acc = Ret (diags, p) ->
  diags = []
  \/ p = origin
     /\ ((exists pitch yaw, diags = [DomainViolation pitch yaw])
         \/ exists k x y z, diags = [Collision k x y z]).
Proof.
  revert i acc. induction n as [| n IH]; intros i acc Hrun.
  - injection Hrun as <- <-. by left.
  - rewrite position_loop_S in Hrun.
    destruct (loop_body m chain i acc) as [| [acc' | [diags' p']]] eqn:Hbody;
      [discriminate | by apply (IH (S i) acc') |].
    injection Hrun as -> ->. right.
    apply (loop_body_return _ _ _ _ _ _ Hbody).
Qed.

(** X11: whatever [calculatePosition] returns, it reports at most one
    condition, and every report (incomplete chain, bound on link 1,
    collision) comes with the position [(0, 0, 0)]; it never reports a
    duplicate id or a wrong capability. *)
Theorem calculatePosition_reports ndebug (fuel : nat) m id diags (p : pos) :
  calculatePosition ndebug fuel m id = Some (Ret (diags, p)) ->
  diags = []
  \/ p = origin
     /\ (diags = [IncompleteChain id]
         \/ (exists pitch yaw, diags = [DomainViolation pitch yaw])
         \/ exists k x y z, diags = [Collision k x y z]).
Proof.
  unfold calculatePosition. intros Hrun.
  destruct (negb ndebug && negb (count m id)); [discriminate |].
  destruct (walk fuel m id []) as [[| [e chain]] |]; try discriminate.
  case_bool_decide.
  - injection Hrun as <- <-. right. split; [done | by left].
  - injection Hrun as Hrun.
    destruct (position_loop_return _ _ _ _ _ _ _ Hrun) as [-> | [-> Hd]];
      [by left | right]. split; [done | by right].
Qed.

(** ** What the walk returns *)

Lemma walk_sound_from (fuel : nat) m id (chain : list Z) :
  (forall e chain',
     walk fuel m id chain = Some (Ret (e, chain')) ->
     exists ls, Walk m id ls e /\ walk_stops m e
                /\ chain' = chain ++ ls.*1 /\ S (length ls) <= fuel)
  /\ (walk fuel m id chain = Some Fault ->
      exists ls e, Walk m id ls e /\ walk_faults m e).
Proof.
  revert id chain. induction fuel as [| fuel IH]; intros id chain;
    [split; [intros e chain' |]; discriminate |].
  rewrite walk_S.
  destruct (bool_decide (id ≠ 0%Z)) eqn:Hne0; cbn [andb].
  - apply bool_decide_eq_true in Hne0.
    destruct (count m id) eqn:Hcount.
    + destruct (m !! id) as [[l |] |] eqn:Hl.
      * destruct (IH (getPrevId l) (chain ++ [id])) as [IHret IHfault]. split.
        -- intros e chain' Hwalk.
           destruct (IHret _ _ Hwalk) as (ls & Hw & Hstop & -> & Hfuel).
           exists ((id, l) :: ls). split; [by constructor |].
           split; [done |]. split; [by rewrite <- app_assoc |].
           cbn [length]. lia.
        -- intros Hwalk. destruct (IHfault Hwalk) as (ls & e & Hw & Hf).
           exists ((id, l) :: ls), e. split; [by constructor | done].
      * split; [discriminate |]. intros _.
        exists [], id. split; [constructor | done].
      * apply count_true in Hcount. rewrite Hl in Hcount.
        by apply is_Some_None in Hcount.
    + split; [| discriminate]. intros e chain' [= <- <-].
      exists []. split; [constructor |].
      split; [right; by apply count_false |].
      split; [by rewrite app_nil_r | cbn [length]; lia].
  - apply bool_decide_eq_false in Hne0. apply dec_stable in Hne0. subst id.
    split; [| discriminate]. intros e chain' [= <- <-].
    exists []. split; [constructor |]. split; [by left |].
    split; [by rewrite app_nil_r | cbn [length]; lia].
Qed.

(** X12: what the walk returns is a chain of the registry.  When it returns
    the pair of an end id and a list, the list holds, target first, the ids
    of registered links each of which names the next as its predecessor, the
    last names the end id, and the end id is 0 or not registered.  When it
    faults, following the predecessors arrived at a null entry. *)
Theorem walk_sound (fuel : nat) m id :
  (forall e chain,
     walk fuel m id [] = Some (Ret (e, chain)) ->
     exists ls, Walk m id ls e /\ walk_stops m e /\ chain = ls.*1)
  /\ (walk fuel m id [] = Some Fault ->
      exists ls e, Walk m id ls e /\ walk_faults m e).
Proof.
  destruct (walk_sound_from fuel m id []) as [Hret Hfault].
  split; [| done]. intros e chain Hwalk.
  destruct (Hret _ _ Hwalk) as (ls & Hw & Hstop & -> & _). eauto.
Qed.

(** ** What a result without report means *)

Lemma position_loop_success m rs (n i : nat) (p : pos) :
  resolved m rs ->
  i + n = length rs ->
  position_loop m rs.*1 n i (chain_position (take i rs.*2)) = Ret ([], p) ->
  p = chain_position rs.*2
  /\ (forall a l, i <= a -> rs !! a = Some (1%Z, l) ->
        exceeds_half_pi l = false)
  /\ (forall a b, i <= a < length rs -> b < a ->
        too_close (position_at rs a) (position_at rs b) = false).
Proof.
  intros Hres. revert i. induction n as [| n IH]; intros i Hlen Hrun.
  - injection Hrun as <-. split; [| split].
    + rewrite take_ge; [done |]. rewrite length_fmap. lia.
    + intros a l Ha Hl. apply lookup_lt_Some in Hl. lia.
    + intros a b Ha. lia.
  - destruct (lookup_lt_is_Some_2 rs i) as [[k l] Hi]; [lia |].
    rewrite position_loop_S, (loop_body_eq _ _ _ _ _ _ Hres Hi) in Hrun.
    destruct (bool_decide (k = 1%Z) && exceeds_half_pi l) eqn:Hchk;
      [discriminate |].
    cbn zeta in Hrun. rewrite <- (position_at_step _ _ _ _ Hi) in Hrun.
    destruct ((0 <? i)%nat && negb _) eqn:Hcol; [discriminate |].
    change (position_at rs i) with (chain_position (take (S i) rs.*2))
      in Hrun at 1.
    destruct (IH (S i)) as (Hp & Hdom & Hfar); [lia | done |].
    split; [done |]. split.
    + intros a l' Ha Hl'. destruct (decide (a = i)) as [-> | Hne].
      * rewrite Hi in Hl'. injection Hl' as -> ->.
        rewrite bool_decide_eq_true_2 in Hchk; done.
      * apply (Hdom a); [lia | done].
    + intros a b Ha Hb. destruct (decide (a = i)) as [-> | Hne].
      * assert ((0 <? i)%nat = true) as Hpos by (apply Nat.ltb_lt; lia).
        rewrite Hpos in Hcol. cbn [andb] in Hcol.
        apply negb_false_iff in Hcol. rewrite forallb_forall in Hcol.
        apply negb_true_iff, Hcol, in_seq. lia.
      * apply Hfar; lia.
Qed.

Lemma calculatePosition_success_walk ndebug (fuel : nat) m id (p : pos) :
  calculatePosition ndebug fuel m id = Some (Ret ([], p)) ->
  exists ls,
    Walk m id ls 0%Z /\ S (length ls) <= fuel
    /\ position_loop m (reverse ls).*1 (length ls) 0 origin = Ret ([], p).
Proof.
  unfold calculatePosition. intros Hrun.
  destruct (negb ndebug && negb (count m id)); [discriminate |].
  destruct (walk fuel m id []) as [[| [e chain]] |] eqn:Hwalk;
    try discriminate.
  case_bool_decide as He; [discriminate |].
  subst e.
  destruct (proj1 (walk_sound_from fuel m id []) _ _ Hwalk)
    as (ls & Hw & _ & -> & Hfuel).
  exists ls. split; [done |]. split; [done |].
  injection Hrun as Hrun. cbn [app] in Hrun.
  rewrite <- fmap_reverse, length_fmap, length_reverse in Hrun. done.
Qed.

(** X13: a position that [calculatePosition] returns without any report is
    the sum of the displacements along a chain that ends at the base; in
    that chain the link with id 1 has neither pitch nor yaw above [pi/2],
    and no link comes closer than [0.1] to a link before it. *)
Theorem calculatePosition_success_sound ndebug (fuel : nat) m id (p : pos) :
  calculatePosition ndebug fuel m id = Some (Ret ([], p)) ->
  exists ls,
    Walk m id ls 0%Z
    /\ p = chain_position (reverse ls).*2
    /\ (forall l, (1%Z, l) ∈ ls -> exceeds_half_pi l = false)
    /\ (forall a b, b < a < length ls ->
          dlt (distance (position_at (reverse ls) a)
                        (position_at (reverse ls) b)) lit_0_1 = false).
Proof.
  intros Hrun.
  destruct (calculatePosition_success_walk _ _ _ _ _ Hrun)
    as (ls & Hw & _ & Hloop).
  destruct (position_loop_success m (reverse ls) (length ls) 0 p)
    as (Hp & Hdom & Hfar);
    [apply resolved_reverse, (Walk_resolved _ _ _ _ Hw)
    | by rewrite length_reverse | done |].
  exists ls. split; [done |]. split; [done |]. split.
  - intros l Hl. apply elem_of_reverse, list_elem_of_lookup in Hl as [a Ha].
    apply (Hdom a l); [lia | done].
  - intros a b Hab. apply Hfar; [rewrite length_reverse |]; lia.
Qed.

Lemma position_at_prefix rs (x : Z * link) (a : nat) :
  a < length rs -> position_at (rs ++ [x]) a = position_at rs a.
Proof.
  intros Ha. unfold position_at. rewrite fmap_app, take_app_le; [done |].
  rewrite length_fmap. lia.
Qed.

(** X14: the recurrence of the positions.  When [calculatePosition] returns
    a position without report for a registered link, that position is
    [(0, 0, 0)] if the link is registered under the id 0, where the walk
    stops at once; for every other id it is the displacement of the link
    added to the base position, if the link is attached to the base, and
    otherwise added to the position that [calculatePosition] returns, again
    without report, for the link's predecessor. *)
Theorem calculatePosition_predecessor ndebug (fuel : nat) m id l (p : pos) :
  calculatePosition ndebug fuel m id = Some (Ret ([], p)) ->
  m !! id = Some (Some l) ->
  (id = 0%Z -> p = origin)
  /\ (id ≠ 0%Z -> getPrevId l = 0%Z -> p = vadd origin (link_displacement l))
  /\ (id ≠ 0%Z -> getPrevId l ≠ 0%Z ->
      exists p',
        calculatePosition ndebug fuel m (getPrevId l) = Some (Ret ([], p'))
        /\ p = vadd p' (link_displacement l)).
Proof.
  intros Hrun Hl.
  destruct (calculatePosition_success_walk _ _ _ _ _ Hrun)
    as (ls & Hw & Hfuel & Hloop).
  split.
  { intros ->. inversion Hw; subst; [| done].
    injection Hloop as <-. done. }
  assert (id ≠ 0%Z ->
          exists ls', ls = (id, l) :: ls' /\ Walk m (getPrevId l) ls' 0%Z
                      /\ p = vadd (chain_position (reverse ls').*2)
                                  (link_displacement l)
                      /\ (forall j l', reverse ls' !! j = Some (1%Z, l') ->
                            exceeds_half_pi l' = false)
                      /\ (forall a b, b < a < length ls' ->
                            too_close (position_at (reverse ls') a)
                                      (position_at (reverse ls') b) = false))
    as Hstep.
  { intros Hne.
    inversion Hw as [| ? l0 ls' ? _ Hl0 Hw']; subst; [done |].
    assert (l0 = l) as -> by congruence.
    pose proof (resolved_reverse _ _ (Walk_resolved _ _ _ _ Hw)) as Hres.
    destruct (position_loop_success m (reverse ((id, l) :: ls'))
                (length ((id, l) :: ls')) 0 p)
      as (Hp & Hdom & Hfar); [done | by rewrite length_reverse | done |].
    rewrite reverse_cons in Hp, Hdom, Hfar.
    exists ls'. split; [done |]. split; [done |]. split; [| split].
    - rewrite Hp. unfold chain_position.
      rewrite fmap_app, fold_left_app. done.
    - intros j l' Hj. apply (Hdom j); [lia |]. apply lookup_app_l_Some, Hj.
    - intros a b Hab.
      rewrite <- (position_at_prefix _ (id, l) a),
              <- (position_at_prefix _ (id, l) b)
        by (rewrite length_reverse; lia).
      apply Hfar; [| lia]. rewrite length_app, length_reverse.
      cbn [length]. lia. }
  split.
  - intros Hne Hprev.
    destruct (Hstep Hne) as (ls' & -> & Hw' & Hsum & _). rewrite Hprev in Hw'.
    revert Hsum. inversion Hw'; subst; [by intros -> | done].
  - intros Hne Hprev.
    destruct (Hstep Hne) as (ls' & -> & Hw' & Hsum & Hdom & Hfar).
    exists (chain_position (reverse ls').*2). split; [| exact Hsum].
    rewrite (calculatePosition_walk _ _ _ ls' 0%Z);
      [| inversion Hw'; subst; [done | eauto] | done | by left
       | cbn [length] in Hfuel; lia].
    rewrite bool_decide_eq_false_2 by tauto. f_equal.
    apply (position_loop_sum m (reverse ls') (length ls') 0).
    + apply resolved_reverse, (Walk_resolved _ _ _ _ Hw').
    + by rewrite length_reverse.
    + exact Hdom.
    + intros a b Hab. apply Hfar. rewrite length_reverse in Hab. lia.
Qed.

(** ** Writes that a chain does not see *)

Section Agree.
Variables m1 m2 : registry.
Variable chain : list Z.
Hypothesis Hagree : forall k, k ∈ chain -> m1 !! k = m2 !! k.

Lemma agree_prev_loop (n j : nat) (prev : pos) :
  prev_loop m1 chain n j prev = prev_loop m2 chain n j prev.
Proof.
  revert j prev. induction n as [| n IH]; intros j prev; [done |].
  cbn [prev_loop]. destruct (chain !! j) as [k |] eqn:Hk; [| done].
  rewrite (Hagree k (list_elem_of_lookup_2 _ _ _ Hk)).
  destruct (m2 !! k) as [[l |] |]; try done.
  destruct prev as [[px py] pz]. apply IH.
Qed.

Lemma agree_collision_loop (n i : nat) (current : pos) :
  collision_loop m1 chain n i current = collision_loop m2 chain n i current.
Proof.
  revert i. induction n as [| n IH]; intros i; [done |].
  cbn [collision_loop]. rewrite agree_prev_loop.
  destruct (prev_loop m2 chain (S i) 0 _) as [| [[px py] pz]]; [done |].
  destruct current as [[cx cy] cz]. destruct (dlt _ lit_0_1); [done |].
  apply IH.
Qed.

Lemma agree_position_loop (n i : nat) (acc : pos) :
  position_loop m1 chain n i acc = position_loop m2 chain n i acc.
Proof.
  revert i acc. induction n as [| n IH]; intros i acc; [done |].
  rewrite !position_loop_S.
  assert (loop_body m1 chain i acc = loop_body m2 chain i acc) as ->.
  { unfold loop_body. destruct (chain !! i) as [k |] eqn:Hk; [| done].
    rewrite (Hagree k (list_elem_of_lookup_2 _ _ _ Hk)).
    destruct (m2 !! k) as [[l |] |]; try done.
    unfold checkCollision. destruct acc as [[x y] z].
    rewrite agree_collision_loop. done. }
  destruct (loop_body m2 chain i acc) as [| [acc' | out]]; try done.
Qed.

End Agree.

(** A write under a key that the walk of a target does not visit and at
    which it does not stop leaves the result for that target as it was. *)
Lemma calculatePosition_insert_other ndebug m t ls e k (v : option link)
    (fuel : nat) :
  is_Some (m !! t) -> Walk m t ls e -> walk_stops m e ->
  k ∉ ls.*1 -> e = 0%Z \/ e ≠ k ->
  S (length ls) <= fuel ->
  calculatePosition ndebug fuel (<[k := v]> m) t
  = calculatePosition ndebug fuel m t.
Proof.
  intros Hreg Hw Hstop Hk He Hfuel.
  rewrite (calculatePosition_walk ndebug m t ls e fuel) by done.
  rewrite (calculatePosition_walk ndebug (<[k := v]> m) t ls e fuel).
  - case_bool_decide; [done |]. f_equal. apply agree_position_loop.
    intros k' Hk'. apply lookup_insert_ne. intros <-. apply Hk.
    rewrite fmap_reverse in Hk'. apply elem_of_reverse, Hk'.
  - destruct Hreg as [p Hp]. destruct (decide (t = k)) as [-> | Hne].
    + rewrite lookup_insert_eq. eauto.
    + rewrite lookup_insert_ne by done. eauto.
  - by apply Walk_insert_other.
  - destruct Hstop as [-> | Hnone]; [by left |].
    destruct He as [-> | Hne]; [by left | right].
    by rewrite lookup_insert_ne.
  - done.
Qed.

Lemma setDirection_inv ndebug m id (p y r : D) m' :
  setDirection ndebug m id p y r = Ret m' ->
  exists l, m !! id = Some (Some l)
            /\ m' = <[id := Some (link_setDirection l p y r)]> m.
Proof.
  unfold setDirection, subscript. intros Hset.
  destruct (negb ndebug && negb (count m id)); [discriminate |].
  destruct (m !! id) as [[l |] |]; try discriminate.
  injection Hset as <-. eauto.
Qed.

(** X15: [setDirection] on a link changes the result of
    [calculatePosition] only for targets whose chain passes through that
    link: for a target whose walk ends without visiting the link, the result
    is the same before and after. *)
Theorem setDirection_off_chain ndebug m id (p y r : D) m' t ls e :
  setDirection ndebug m id p y r = Ret m' ->
  is_Some (m !! t) -> Walk m t ls e -> walk_stops m e ->
  id ∉ ls.*1 ->
  forall fuel, S (length ls) <= fuel ->
    calculatePosition ndebug fuel m' t = calculatePosition ndebug fuel m t.
Proof.
  intros Hset Hreg Hw Hstop Hid fuel Hfuel.
  destruct (setDirection_inv _ _ _ _ _ _ _ Hset) as (l & Hl & ->).
  apply (calculatePosition_insert_other _ _ _ ls e); try done.
  destruct Hstop as [-> | Hnone]; [by left | right]. congruence.
Qed.

(** X16: registering a further link leaves the result of
    [calculatePosition] as it was for every target whose chain ends at the
    base. *)
Theorem addLink_keeps_positions ndebug m l t ls :
  m !! getId l = None ->
  is_Some (m !! t) -> Walk m t ls 0%Z ->
  exists m',
    addLink m (Some l) = Ret (m', [])
    /\ forall fuel, S (length ls) <= fuel ->
         calculatePosition ndebug fuel m' t = calculatePosition ndebug fuel m t.
Proof.
  intros Hfree Hreg Hw. exists (<[getId l := Some l]> m). split.
  - unfold addLink. rewrite (proj2 (count_false m (getId l)) Hfree). done.
  - intros fuel Hfuel.
    apply (calculatePosition_insert_other _ _ _ ls 0%Z);
      [done | done | by left | | by left | done].
    intros Hk. destruct (Walk_keys_registered _ _ _ _ _ Hw Hk) as [l' Hl'].
    congruence.
Qed.

(** X17: [setDirection] changes no chain: for every target the walk over
    the predecessors gives the same outcome, the same list or the same
    fault or no end, in the registry it returns as in the one it was given. *)
Theorem setDirection_keeps_chains ndebug m id (p y r : D) m' :
  setDirection ndebug m id p y r = Ret m' ->
  forall (fuel : nat) t (chain : list Z),
    walk fuel m' t chain = walk fuel m t chain.
Proof.
  intros Hset fuel t chain.
  destruct (setDirection_inv _ _ _ _ _ _ _ Hset) as (l & Hl & ->).
  symmetry. apply related_walk.
  by apply (registry_related_insert _ _ _ l).
Qed.

(** X18: [setDirection] with the pitch and yaw the link already has, and any
    roll, leaves every result of [calculatePosition] as it was. *)
Theorem setDirection_roll_only ndebug m id l (r : D) m' :
  m !! id = Some (Some l) ->
  setDirection ndebug m id (link_pitch l) (link_yaw l) r = Ret m' ->
  forall nd (fuel : nat) t,
    calculatePosition nd fuel m' t = calculatePosition nd fuel m t.
Proof.
  intros Hl Hset nd fuel t.
  destruct (setDirection_inv _ _ _ _ _ _ _ Hset) as (l0 & Hl0 & ->).
  assert (l0 = l) as -> by congruence.
  symmetry. apply related_calculatePosition.
  by apply (registry_related_insert _ _ _ l).
Qed.

(** ** [printStructure] *)

Lemma entries_visits_all : visits_all (entries (D:=D) (G:=G) (C:=C)).
Proof. intros m. apply merge_sort_Permutation. Qed.

Lemma entries_sorted m : StronglySorted Z.le (entries m).*1.
Proof.
  apply (StronglySorted_fmap fst entry_le); [done |].
  apply StronglySorted_merge_sort.
  - intros a b c. unfold entry_le. lia.
  - intros a b. unfold entry_le. lia.
Qed.

Lemma print_loop_fault (es : list (Z * option link)) :
  (print_loop es).2 = Fault <-> exists k, (k, None) ∈ es.
Proof.
  induction es as [| [k [l |]] es IH]; cbn [print_loop].
  - split; [discriminate | intros [k Hk]; by apply elem_of_nil in Hk].
  - destruct (print_loop es) as [o r]. cbn [snd] in *. rewrite IH.
    split; intros [k' Hk']; exists k'.
    + by apply elem_of_cons; right.
    + apply elem_of_cons in Hk' as [Hk' | Hk']; [discriminate Hk' | done].
  - split; [intros _ | done]. exists k. apply elem_of_cons. by left.
Qed.

Lemma print_loop_no_footer (es : list (Z * option link)) :
  StructureFooter ∉ (print_loop es).1.
Proof.
  induction es as [| [k [l |]] es IH]; cbn [print_loop];
    [apply not_elem_of_nil | | apply not_elem_of_nil].
  destruct (print_loop es) as [o r]. cbn [fst] in *.
  apply not_elem_of_cons. done.
Qed.

Lemma print_loop_links (es : list (Z * option link)) :
  (forall k, (k, None) ∉ es) ->
  exists ls : list (Z * link),
    es = (fun kl => (kl.1, Some kl.2)) <$> ls
    /\ print_loop es = (LinkInfo <$> ls.*2, Ret tt).
Proof.
  induction es as [| [k [l |]] es IH]; intros Hnull.
  - by exists [].
  - destruct IH as (ls & -> & Hrun).
    { intros k' Hk'. apply (Hnull k'), elem_of_cons. by right. }
    exists ((k, l) :: ls). split; [done |].
    cbn [print_loop]. rewrite Hrun. done.
  - exfalso. apply (Hnull k), elem_of_cons. by left.
Qed.

Section Iteration.
Variable iterate : registry -> list (Z * option link).
Hypothesis Hall : visits_all iterate.

Lemma elem_of_iterate m k (p : option link) :
  (k, p) ∈ iterate m <-> m !! k = Some p.
Proof. rewrite (Hall m). apply elem_of_map_to_list. Qed.

Lemma print_loop_iterate_fault m :
  (print_loop (iterate m)).2 = Fault <-> exists k, m !! k = Some None.
Proof.
  rewrite print_loop_fault.
  split; intros [k Hk]; exists k; by apply elem_of_iterate.
Qed.

End Iteration.

(** X19: whatever the order of the iteration, [printStructure] stops at a
    null pointer exactly when the registry holds a null entry, as
    [openGripper], [closeGripper] and [takePhoto] leave one behind on an
    unknown id; it then has printed the opening line but never prints the
    closing line. *)
Theorem printStructure_null iterate m :
  visits_all iterate ->
  ((printStructure iterate m).2 = Fault <-> exists k, m !! k = Some None)
  /\ ((printStructure iterate m).2 = Fault ->
      head (printStructure iterate m).1 = Some StructureHeader
      /\ StructureFooter ∉ (printStructure iterate m).1)
  /\ (forall k (angle : D), m !! k = None ->
        (printStructure iterate (openGripper m k angle).1).2 = Fault
        /\ (printStructure iterate (closeGripper m k).1).2 = Fault
        /\ (printStructure iterate (takePhoto m k).1).2 = Fault).
Proof.
  intros Hall.
  assert (forall m0 : registry,
            (printStructure iterate m0).2 = Fault
            <-> exists k, m0 !! k = Some None) as Hnull.
  { intros m0. rewrite <- (print_loop_iterate_fault iterate Hall).
    unfold printStructure.
    destruct (print_loop (iterate m0)) as [o [| []]]; done. }
  split; [apply Hnull | split].
  - unfold printStructure.
    pose proof (print_loop_no_footer (iterate m)) as Hfoot.
    destruct (print_loop (iterate m)) as [o [| []]]; [| discriminate].
    intros _. split; [done |]. cbn [fst] in *.
    apply not_elem_of_cons. done.
  - intros k angle Hk. unfold openGripper, closeGripper, takePhoto.
    rewrite (subscript_absent _ _ Hk). cbn [cast_Gripper cast_Camera fst].
    repeat split; apply Hnull; exists k; apply lookup_insert_eq.
Qed.

(** X20: on a registry without null entry [printStructure] prints the
    opening line, then one [printInfo] for every registered link, each link
    once, then the closing line; with the iteration of a [std::map] the
    links come in ascending order of their ids. *)
Theorem printStructure_output iterate m :
  visits_all iterate ->
  (forall k, m !! k ≠ Some None) ->
  exists ls : list (Z * link),
    printStructure iterate m
    = (StructureHeader :: (LinkInfo <$> ls.*2) ++ [StructureFooter], Ret tt)
    /\ ls.*1 = (iterate m).*1
    /\ NoDup ls.*1
    /\ (forall k l, (k, l) ∈ ls <-> m !! k = Some (Some l))
    /\ length ls = size m
    /\ (iterate = entries -> StronglySorted Z.le ls.*1).
Proof.
  intros Hall Hnull.
  destruct (print_loop_links (iterate m)) as (ls & Hes & Hrun).
  { intros k Hk. apply (elem_of_iterate iterate Hall) in Hk.
    by apply (Hnull k). }
  assert (ls.*1 = (iterate m).*1) as Hkeys.
  { rewrite Hes, <- list_fmap_compose. done. }
  exists ls. split; [| split; [done |]; split; [| split; [| split]]].
  - unfold printStructure. rewrite Hrun. done.
  - rewrite Hkeys, (Hall m). apply NoDup_fst_map_to_list.
  - intros k l. rewrite <- (elem_of_iterate iterate Hall), Hes. split.
    + intros Hin. apply list_elem_of_fmap. by exists (k, l).
    + intros Hin. apply list_elem_of_fmap in Hin as ([k' l'] & [= -> ->] & Hin).
      done.
  - rewrite <- (length_fmap (fun kl : Z * link => (kl.1, Some kl.2))), <- Hes.
    rewrite (Hall m). apply length_map_to_list.
  - intros ->. rewrite Hkeys. apply entries_sorted.
Qed.

End Coverage.

(** ** The further properties on concrete registries *)

Section CoverageReals.
Local Open Scope R_scope.

Ltac real_values :=
  cbn [link_r link_pitch link_yaw plain upright_1 upright_2
       dadd dsub dmul ddiv fcos fsin fsqrt fpow dlt dle lit_0_0 lit_0_1
       M_PI of_int R_Double fst snd].

Lemma two_links_lookup k (l : MovableLink R R nat) :
  two_links !! k = Some (Some l) ->
  k = 1%Z /\ l = upright_1 \/ k = 2%Z /\ l = upright_2.
Proof.
  unfold two_links. intros Hl.
  destruct (decide (k = 1%Z)) as [-> | H1].
  { rewrite lookup_insert_eq in Hl. left. split; congruence. }
  rewrite lookup_insert_ne in Hl by done.
  destruct (decide (k = 2%Z)) as [-> | H2].
  { rewrite lookup_insert_eq in Hl. right. split; congruence. }
  rewrite lookup_insert_ne, lookup_empty in Hl by done. discriminate Hl.
Qed.

Lemma two_links_well_keyed : well_keyed two_links.
Proof.
  intros k l Hl.
  destruct (two_links_lookup k l Hl) as [[-> ->] | [-> ->]]; reflexivity.
Qed.

Lemma two_links_no_null k : two_links !! k ≠ Some None.
Proof.
  unfold two_links. intros Hl.
  destruct (decide (k = 1%Z)) as [-> | H1].
  { rewrite lookup_insert_eq in Hl. discriminate Hl. }
  rewrite lookup_insert_ne in Hl by done.
  destruct (decide (k = 2%Z)) as [-> | H2].
  { rewrite lookup_insert_eq in Hl. discriminate Hl. }
  rewrite lookup_insert_ne, lookup_empty in Hl by done. discriminate Hl.
Qed.

Lemma two_links_walk :
  Walk two_links 2 [(2%Z, upright_2); (1%Z, upright_1)] 0.
Proof.
  apply Walk_link; [discriminate | reflexivity |].
  apply Walk_link; [discriminate | reflexivity | apply Walk_end].
Qed.

Lemma upright_1_within_bound : exceeds_half_pi upright_1 = false.
Proof.
  unfold exceeds_half_pi. rewrite !half_pi_above; [done | |];
    cbn [link_yaw link_pitch upright_1 plain]; lra.
Qed.

Lemma two_links_run (fuel : nat) :
  (3 <= fuel)%nat ->
  calculatePosition false fuel two_links 2
  = Some (Ret ([], chain_position [upright_1; upright_2])).
Proof.
  intros Hfuel.
  rewrite (calculatePosition_walk false two_links 2 _ 0%Z fuel
             (ex_intro _ (Some upright_2) eq_refl) two_links_walk
             (or_introl eq_refl) Hfuel).
  rewrite bool_decide_eq_false_2 by tauto. f_equal.
  apply (position_loop_sum two_links
           [(1%Z, upright_1); (2%Z, upright_2)] 2 0).
  - repeat constructor.
  - reflexivity.
  - intros [| [| j]] l Hj; try done. injection Hj as <-.
    apply upright_1_within_bound.
  - intros a b Hab. cbn [length] in Hab.
    assert (a = 1%nat /\ b = 0%nat) as [-> ->] by lia.
    unfold too_close. destruct upright_positions as [-> ->].
    unfold distance. real_values. rewrite !powerRZ_2.
    replace (sqrt ((0 - 0) * (0 - 0) + (0 - 0) * (0 - 0) + (2 - 1) * (2 - 1)))
      with 1 by (rewrite <- sqrt_1 at 1; f_equal; ring).
    apply bool_decide_eq_false. lra.
Qed.

Lemma addLink_fresh_witness :
  exists m',
    addLink two_links (Some (plain 5 2 1 0 0 0)) = Ret (m', [])
    /\ getLink m' 5 = Some (plain 5 2 1 0 0 0)
    /\ size m' = S (size two_links).
Proof.
  destruct (addLink_fresh two_links (plain 5 2 1 0 0 0) eq_refl)
    as (m' & Hadd & Hget & _ & Hsize).
  exists m'. split; [exact Hadd | split; [exact Hget | exact Hsize]].
Defined.

Lemma operations_keep_well_keyed_witness :
  well_keyed (openGripper two_links 9 1).1
  /\ well_keyed (takePhoto two_links 1).1.
Proof.
  destruct (operations_keep_well_keyed two_links two_links_well_keyed)
    as (_ & _ & Hopen & _ & Hphoto).
  split; [apply Hopen | apply Hphoto].
Defined.

Lemma setDirection_getLink_witness :
  exists m' l',
    setDirection false two_links 1 2 3 4 = Ret m'
    /\ getLink m' 1 = Some l'
    /\ getDirection l' = (2, 3) /\ link_roll l' = 4.
Proof.
  destruct (setDirection_getLink false two_links 1 upright_1 2 3 4 eq_refl)
    as (m' & l' & Hset & Hget & Hdir & Hroll & _).
  exists m', l'. repeat split; assumption.
Defined.

Lemma setDirection_twice_witness :
  setDirection false
    (<[1%Z := Some (link_setDirection upright_1 2 3 4)]> two_links) 1 0 0 0
  = setDirection false two_links 1 0 0 0.
Proof.
  apply (setDirection_twice false two_links 1 2 3 4 0 0 0). reflexivity.
Defined.

Lemma capability_applies_witness :
  exists m1,
    openGripper tools 3 0.5 = (m1, [])
    /\ getLink m1 3
       = Some (with_kind gripper_3 (GripperLink (gripper_open 0.5 0))).
Proof.
  destruct (capability_applies tools 3 gripper_3 eq_refl) as [Hgrip _].
  destruct (Hgrip 0 0.5 eq_refl) as (m1 & m2 & Hopen & Hget & _).
  exists m1. split; assumption.
Defined.

Lemma capability_keeps_positions_witness :
  calculatePosition false 5 (openGripper tools 3 0.5).1 3
  = calculatePosition false 5 tools 3.
Proof.
  apply (capability_keeps_positions tools 3 0.5 false 5 3).
  exists (Some gripper_3). reflexivity.
Defined.

Lemma capability_absent_breaks_chain_witness :
  calculatePosition false 2 dangling 2
  = Some (Ret ([IncompleteChain 2%Z], origin))
  /\ calculatePosition false 2 (openGripper dangling 7 1).1 2 = Some Fault.
Proof.
  destruct (capability_absent_breaks_chain false dangling 2
              [(2%Z, dangling_2)] 7 1) with (fuel := 2%nat)
    as (Hbefore & Hafter & _).
  - exists (Some dangling_2). reflexivity.
  - apply Walk_link; [discriminate | reflexivity | apply Walk_end].
  - discriminate.
  - reflexivity.
  - cbn [length]. lia.
  - split; assumption.
Defined.

Lemma calculatePosition_unregistered_witness :
  calculatePosition false 1 dangling 7 = Some Fault
  /\ calculatePosition true 1 dangling 7
     = Some (Ret ([IncompleteChain 7%Z], origin)).
Proof.
  destruct (calculatePosition_unregistered dangling 7 0 eq_refl)
    as [Hassert Hndebug].
  split; [exact Hassert | apply Hndebug; discriminate].
Defined.

Lemma calculatePosition_null_entry_witness :
  exists n, forall fuel, (n <= fuel)%nat ->
    calculatePosition false fuel
      (<[5%Z := None]> (∅ : gmap Z (option (MovableLink R R nat)))) 5
    = Some Fault.
Proof.
  apply (calculatePosition_null_entry false _ 5 [] 5).
  - apply Walk_end.
  - discriminate.
  - reflexivity.
Defined.

Lemma calculatePosition_reports_witness :
  let diags : list (Diag R) := [IncompleteChain 2%Z] in
  diags = []
  \/ (origin : R * R * R) = origin
     /\ (diags = [IncompleteChain 2%Z]
         \/ (exists pitch yaw, diags = [DomainViolation pitch yaw])
         \/ exists k x y z, diags = [Collision k x y z]).
Proof.
  apply (calculatePosition_reports false 2 dangling 2). reflexivity.
Defined.

Lemma calculatePosition_success_sound_witness :
  exists ls,
    Walk two_links 2 ls 0
    /\ chain_position [upright_1; upright_2] = chain_position (reverse ls).*2.
Proof.
  destruct (calculatePosition_success_sound false 3 two_links 2
              (chain_position [upright_1; upright_2])
              (two_links_run 3 (le_n 3)))
    as (ls & Hw & Hp & _).
  exists ls. split; assumption.
Defined.

Lemma calculatePosition_predecessor_witness :
  exists p',
    calculatePosition false 3 two_links 1 = Some (Ret ([], p'))
    /\ chain_position [upright_1; upright_2]
       = vadd p' (link_displacement upright_2).
Proof.
  destruct (calculatePosition_predecessor false 3 two_links 2 upright_2
              (chain_position [upright_1; upright_2])
              (two_links_run 3 (le_n 3)) eq_refl)
    as (_ & _ & Hprev).
  apply Hprev; discriminate.
Defined.

Lemma setDirection_off_chain_witness :
  calculatePosition false 2
    (<[2%Z := Some (link_setDirection upright_2 1 1 1)]> two_links) 1
  = calculatePosition false 2 two_links 1.
Proof.
  apply (setDirection_off_chain false two_links 2 1 1 1 _ 1
           [(1%Z, upright_1)] 0).
  - reflexivity.
  - exists (Some upright_1). reflexivity.
  - apply Walk_link; [discriminate | reflexivity | apply Walk_end].
  - left. reflexivity.
  - intros Hin. apply list_elem_of_singleton in Hin. discriminate Hin.
  - cbn [length]. lia.
Defined.

Lemma addLink_keeps_positions_witness :
  exists m',
    addLink two_links (Some (plain 5 2 1 0 0 0)) = Ret (m', [])
    /\ calculatePosition false 3 m' 2 = calculatePosition false 3 two_links 2.
Proof.
  destruct (addLink_keeps_positions false two_links (plain 5 2 1 0 0 0) 2
              [(2%Z, upright_2); (1%Z, upright_1)] eq_refl
              (ex_intro _ (Some upright_2) eq_refl) two_links_walk)
    as (m' & Hadd & Hsame).
  exists m'. split; [exact Hadd |]. apply Hsame. cbn [length]. lia.
Defined.

Lemma setDirection_keeps_chains_witness :
  walk 5 (<[1%Z := Some (link_setDirection upright_1 2 3 4)]> two_links) 2 []
  = walk 5 two_links 2 [].
Proof.
  apply (setDirection_keeps_chains false two_links 1 2 3 4). reflexivity.
Defined.

Lemma setDirection_roll_only_witness :
  calculatePosition false 5
    (<[1%Z := Some (link_setDirection upright_1 0 0 7)]> two_links) 2
  = calculatePosition false 5 two_links 2.
Proof.
  apply (setDirection_roll_only false two_links 1 upright_1 7);
    reflexivity.
Defined.

Lemma printStructure_null_witness :
  (printStructure entries (openGripper two_links 9 1).1).2 = Fault.
Proof.
  destruct (printStructure_null entries two_links entries_visits_all)
    as (_ & _ & Hopen).
  apply (Hopen 9%Z 1). reflexivity.
Defined.

Lemma printStructure_output_witness :
  exists ls : list (Z * MovableLink R R nat),
    printStructure entries two_links
    = (StructureHeader :: (LinkInfo <$> ls.*2) ++ [StructureFooter], Ret tt)
    /\ length ls = size two_links
    /\ StronglySorted Z.le ls.*1.
Proof.
  destruct (printStructure_output entries two_links entries_visits_all
              two_links_no_null)
    as (ls & Hout & _ & _ & _ & Hlen & Hsorted).
  exists ls. split; [exact Hout | split; [exact Hlen | exact (Hsorted eq_refl)]].
Defined.

End CoverageReals.
